(** * An inverted index over tweets and its boolean AND queries

    Shallow embedding of [assignment-1.js]: the text normalizer
    ([preprocess], [tokenize], [normalize], [collectTypes]), the indexer
    ([index]) and the query engine ([query]), followed by the properties
    of the specification that were checked against them.

    Conventions of the embedding.
    - A JavaScript string is a [string]; every [ascii] stands for one code
      unit below 256.
    - A line number is a [nat].
    - [PostingsListItem | undefined] is a [list nat]: [[]] is [undefined]
      and [d :: p] is [new PostingsListItem(d, p)].
    - The dictionary, a [Map] keyed by strings, is a [gmap string _].
    - The sparse array [ids] is a [list (option string)], [None] being a
      hole; reading a hole or past the end gives [undefined], again [None].
    - The stream of lines read from the file is a [list string]. *)

From Stdlib Require Import Ascii String.
From stdpp Require Import gmap strings list fin_maps sorting.

Local Open Scope string_scope.
Local Open Scope nat_scope.
Local Open Scope list_scope.

(** ** Strings and arrays of JavaScript *)

Module JS.

(** [s.split(sep)] for a separator of one character. *)
Fixpoint split (sep : ascii) (s : string) : list string :=
  match s with
  | EmptyString => [EmptyString]
  | String c rest =>
      if Ascii.eqb c sep then EmptyString :: split sep rest
      else match split sep rest with
           | hd :: tl => String c hd :: tl
           | [] => [String c EmptyString]
           end
  end.

(** Truthiness of a string: every string but the empty one. *)
Definition truthy (s : string) : bool :=
  match s with EmptyString => false | String _ _ => true end.

(** [arr.includes(x)] on an array of strings. *)
Definition includes (arr : list string) (x : string) : bool :=
  existsb (String.eqb x) arr.

(** [s.startsWith("#")]. *)
Definition startsWith_hash (s : string) : bool :=
  match s with
  | String c _ => Ascii.eqb c "#"
  | EmptyString => false
  end.

(** [s.replace(/#/, e)] for the empty string [e]: without the [g] flag only
    the leftmost [#] goes. *)
Fixpoint replace_hash (s : string) : string :=
  match s with
  | EmptyString => EmptyString
  | String c rest =>
      if Ascii.eqb c "#" then rest else String c (replace_hash rest)
  end.

(** [c.toLowerCase()] on one code unit below 256: the letters [A-Z], and
    the capital letters of Latin-1 (U+00C0 to U+00DE but U+00D7). *)
Definition lower_char (c : ascii) : ascii :=
  let n := nat_of_ascii c in
  if (((65 <=? n) && (n <=? 90))
      || ((192 <=? n) && (n <=? 222) && negb (n =? 215)))%nat
  then ascii_of_nat (n + 32) else c.

Fixpoint toLowerCase (s : string) : string :=
  match s with
  | EmptyString => EmptyString
  | String c rest => String (lower_char c) (toLowerCase rest)
  end.

(** [arr[i] = v] on a sparse array: a write past the end first fills the
    gap with holes. *)
Definition array_set (arr : list (option string)) (i : nat) (v : string)
  : list (option string) :=
  if i <? length arr then <[i := Some v]> arr
  else arr ++ replicate (i - length arr) None ++ [Some v].

(** [arr[i]]: [undefined] for a hole and past the end. *)
Definition array_get (arr : list (option string)) (i : nat) : option string :=
  match arr !! i with
  | Some (Some v) => Some v
  | _ => None
  end.

End JS.

(** ** Text normalizer *)

(** [\d] *)
Definition is_digit (c : ascii) : bool :=
  let n := nat_of_ascii c in ((48 <=? n) && (n <=? 57))%nat.

(** [\w]: the letters [A-Z] and [a-z], the digits and the underscore. *)
Definition is_word (c : ascii) : bool :=
  let n := nat_of_ascii c in
  (((65 <=? n) && (n <=? 90)) || ((97 <=? n) && (n <=? 122))
   || ((48 <=? n) && (n <=? 57)) || (n =? 95))%nat.

(** A letter of the alphabet, [A-Z] or [a-z]. *)
Definition is_letter (c : ascii) : bool :=
  let n := nat_of_ascii c in
  (((65 <=? n) && (n <=? 90)) || ((97 <=? n) && (n <=? 122)))%nat.

(** The class [[^\d\w#]]. *)
Definition is_unnecessary (c : ascii) : bool :=
  negb (is_digit c || is_word c || Ascii.eqb c "#").

(** The global replacement of [/\[NEWLINE\]|\[TAB\]|[^\d\w#]/g] by one
    space, scanning from the left. [skip] counts the characters of a
    matched marker that are still to be passed over. *)
Fixpoint preprocess_from (skip : nat) (text : string) : string :=
  match text with
  | EmptyString => EmptyString
  | String c rest =>
      match skip with
      | S k => preprocess_from k rest
      | O =>
          if String.prefix "[NEWLINE]" text then String " " (preprocess_from 8 rest)
          else if String.prefix "[TAB]" text then String " " (preprocess_from 4 rest)
          else if is_unnecessary c then String " " (preprocess_from 0 rest)
          else String c (preprocess_from 0 rest)
      end
  end.

Definition preprocess (text : string) : string := preprocess_from 0 text.

Definition tokenize (text : string) : list string :=
  List.filter JS.truthy (JS.split " " text).

Definition normalize (tokens : list string) : list string :=
  List.map JS.toLowerCase tokens.

(** The callback of the [reduce] in [collectTypes]. *)
Definition collectTypes_step (types : list string) (token : string) : list string :=
  if JS.includes types token then types
  else if JS.startsWith_hash token then
    let tokenWithoutHashtag := JS.replace_hash token in
    if JS.includes types tokenWithoutHashtag then types ++ [token]
    else types ++ [token; tokenWithoutHashtag]
  else types ++ [token].

Definition collectTypes (tokens : list string) : list string :=
  fold_left collectTypes_step tokens [].

(** ** Indexer *)

(** A dictionary entry [{ term, size, postingsList }]. *)
Record DictionaryItem := mkItem {
  term : string;
  size : nat;
  postingsList : list nat
}.

(** The variables of [index] that the loop over the lines updates. *)
Record IndexState := mkState {
  lineNumber : nat;
  dictionary : gmap string DictionaryItem;
  ids : list (option string)
}.

(** The callback of [types.forEach]: create or update the entry of [type]. *)
Definition index_type (lineNumber : nat) (dictionary : gmap string DictionaryItem)
    (type : string) : gmap string DictionaryItem :=
  match dictionary !! type with
  | Some dictionaryItem =>
      let updatedItem :=
        {| term := term dictionaryItem;
           size := size dictionaryItem + 1;
           postingsList := lineNumber :: postingsList dictionaryItem |} in
      <[type := updatedItem]> dictionary
  | None =>
      let newItem :=
        {| term := type; size := 1; postingsList := [lineNumber] |} in
      <[type := newItem]> dictionary
  end.

(** The tabulator, [SEPARATOR]. *)
Definition SEPARATOR : ascii := ascii_of_nat 9.

(** The fields [id] and [tweetText] of [line.split(SEPARATOR)]; the fourth
    field is [undefined] on a line of fewer than four fields. *)
Definition line_id (line : string) : string :=
  default EmptyString (head (JS.split SEPARATOR line)).

Definition line_tweetText (line : string) : option string :=
  JS.split SEPARATOR line !! 3.

(** The types of a line, [None] when the line is skipped. *)
Definition line_types (line : string) : option (list string) :=
  match line_tweetText line with
  | Some tweetText =>
      if negb (JS.truthy tweetText) then None
      else
        let preprocessed := preprocess tweetText in
        if negb (JS.truthy preprocessed) then None
        else Some (collectTypes (normalize (tokenize preprocessed)))
  | None => None
  end.

(** One turn of the loop over the lines. *)
Definition index_line (st : IndexState) (line : string) : IndexState :=
  match line_types line with
  | None =>
      {| lineNumber := lineNumber st + 1;
         dictionary := dictionary st;
         ids := ids st |}
  | Some types =>
      {| lineNumber := lineNumber st + 1;
         dictionary := fold_left (index_type (lineNumber st)) types (dictionary st);
         ids := JS.array_set (ids st) (lineNumber st) (line_id line) |}
  end.

Definition index_init : IndexState :=
  {| lineNumber := 0; dictionary := ∅; ids := [] |}.

(** The state of [index] after the lines read so far. *)
Definition index_lines (lines : list string) : IndexState :=
  fold_left index_line lines index_init.

(** [index] on a file of the given lines. *)
Definition index (lines : list string)
  : gmap string DictionaryItem * list (option string) :=
  let st := index_lines lines in (dictionary st, ids st).

(** ** Query engine *)

(** [dictionary.get(term)?.postingsList] *)
Definition postings_head (dictionary : gmap string DictionaryItem) (term : string)
  : list nat :=
  match dictionary !! term with
  | Some dictionaryItem => postingsList dictionaryItem
  | None => []
  end.

(** Truthiness of [PostingsListItem | undefined]. *)
Definition is_item (p : list nat) : bool :=
  match p with [] => false | _ :: _ => true end.

(** The loops [while (currentItem) { result.push(...); ... }]. *)
Fixpoint to_array (currentItem : list nat) (result : list nat) : list nat :=
  match currentItem with
  | [] => result
  | documentId :: nextPosting => to_array nextPosting (result ++ [documentId])
  end.

(** [a.size] where [a] is a [PostingsListItem]: the class has the fields
    [documentId] and [nextPosting] and no other, so the read gives
    [undefined], here [None]. *)
Definition item_size (a : list nat) : option Z := None.

(** [x - y] on [number | undefined]; [None] in the result is [NaN]. *)
Definition js_minus (x y : option Z) : option Z :=
  match x, y with
  | Some n, Some m => Some (n - m)%Z
  | _, _ => None
  end.

(** The comparator [(a, b) => a.size - b.size]. *)
Definition by_size (a b : list nat) : option Z :=
  js_minus (item_size a) (item_size b).

(** [Array.prototype.sort]: the comparator is called on the defined
    elements only, a result of [NaN] counts as [0], the sort is stable and
    the [undefined] elements go to the end. *)
Definition sort_compare (comparefn : list nat → list nat → option Z)
    (x y : list nat) : Z :=
  match comparefn x y with
  | Some v => v
  | None => 0%Z
  end.

Fixpoint sort_insert (comparefn : list nat → list nat → option Z)
    (x : list nat) (sorted : list (list nat)) : list (list nat) :=
  match sorted with
  | [] => [x]
  | y :: rest =>
      if (sort_compare comparefn x y <=? 0)%Z then x :: y :: rest
      else y :: sort_insert comparefn x rest
  end.

Definition js_sort (comparefn : list nat → list nat → option Z)
    (arr : list (list nat)) : list (list nat) :=
  foldr (sort_insert comparefn) [] (List.filter is_item arr)
  ++ List.filter (λ p, negb (is_item p)) arr.

(** The loop [while (itemA && itemB)]; the new items are hung on the end of
    the result list. *)
Fixpoint while_both (itemA itemB resultList : list nat) {struct itemA} : list nat :=
  let fix move_B (itemB resultList : list nat) {struct itemB} : list nat :=
    match itemA, itemB with
    | a :: nextA, b :: nextB =>
        if a =? b then while_both nextA nextB (resultList ++ [a])
        else if b <? a then while_both nextA itemB resultList
        else move_B nextB resultList
    | _, _ => resultList
    end
  in move_B itemB resultList.

(** The loop [do { ... } while (...)]. [allItems.shift()] gives [undefined]
    on the empty array, which leaves the loop through [break]. *)
Fixpoint do_while (itemA itemB : list nat) (allItems : list (list nat))
    (resultList : list nat) {struct allItems} : list nat :=
  let resultList := while_both itemA itemB resultList in
  let itemA := resultList in
  match allItems with
  | [] => resultList
  | itemB :: allItems =>
      if is_item itemA && is_item itemB then
        if (0 <? length allItems) || (is_item itemA && is_item itemB)
        then do_while itemA itemB allItems []
        else []
      else resultList
  end.

(** [allItems.shift()]: the first element, [undefined] if there is none,
    and the array that is left. *)
Definition shift (allItems : list (list nat)) : list nat * list (list nat) :=
  match allItems with
  | [] => ([], [])
  | first :: rest => (first, rest)
  end.

(** The sorted array of list heads of a query of several terms. *)
Definition sorted_items (dictionary : gmap string DictionaryItem)
    (terms : list string) : list (list nat) :=
  js_sort by_size (List.map (postings_head dictionary) terms).

(** The line numbers that [query] finds, before they go through [idsMap]. *)
Definition query_lines (dictionary : gmap string DictionaryItem)
    (terms : list string) : list nat :=
  match terms with
  | [term0] => to_array (postings_head dictionary term0) []
  | _ =>
      let allItems := sorted_items dictionary terms in
      let '(itemA, allItems) := shift allItems in
      let '(itemB, allItems) := shift allItems in
      to_array (do_while itemA itemB allItems []) []
  end.

Definition query (dictionary : gmap string DictionaryItem)
    (idsMap : list (option string)) (terms : list string) : list (option string) :=
  List.map (JS.array_get idsMap) (query_lines dictionary terms).

(** ** The rule of Collect Types as the specification words it

    Every token is put into the set of types; a token that starts with [#]
    also puts its stripped form there, unless the stripped form is in the
    set collected so far. A set keeps one copy of what is put twice. *)

Definition add_type (types : list string) (type : string) : list string :=
  if JS.includes types type then types else types ++ [type].

Definition collectTypes_spec_step (types : list string) (token : string)
  : list string :=
  if JS.startsWith_hash token then
    if JS.includes types (JS.replace_hash token) then add_type types token
    else add_type (add_type types token) (JS.replace_hash token)
  else add_type types token.

Definition collectTypes_spec (tokens : list string) : list string :=
  fold_left collectTypes_spec_step tokens [].

(** The types that one token adds to the types collected so far. *)
Definition new_types (seen : list string) (token : string) : list string :=
  if JS.includes seen token then []
  else if JS.startsWith_hash token && negb (JS.includes seen (JS.replace_hash token))
       then [token; JS.replace_hash token]
       else [token].

(** ** Sample input *)

Definition TAB : string := String SEPARATOR EmptyString.

(** A line of the file: id, user id, user name and text. *)
Definition tweet (id text : string) : string :=
  id +:+ TAB +:+ "u1" +:+ TAB +:+ "user" +:+ TAB +:+ text.

(** Where a type comes from: it is a token, or a hashtag token stripped. *)
Definition type_of_tokens (tokens : list string) (type : string) : Prop :=
  type ∈ tokens
  ∨ ∃ token, token ∈ tokens ∧ JS.startsWith_hash token = true
             ∧ type = JS.replace_hash token.

(** The token starts with two [#]. *)
Definition double_hash (token : string) : bool :=
  JS.startsWith_hash token && JS.startsWith_hash (JS.replace_hash token).

(** Every hashtag among the types has its stripped form there too. *)
Definition hashtags_expanded (types : list string) : Prop :=
  ∀ type, type ∈ types → JS.startsWith_hash type = true →
          JS.replace_hash type ∈ types.

(** ** Vocabulary of the statements on characters *)

(** Every character of the string passes the test. *)
Fixpoint all_chars (test : ascii → bool) (s : string) : bool :=
  match s with
  | EmptyString => true
  | String c rest => test c && all_chars test rest
  end.

(** What [preprocess] leaves or writes: a character of [[\d\w#]], or the
    space. *)
Definition is_clean (c : ascii) : bool :=
  negb (is_unnecessary c) || Ascii.eqb c " ".

(** A character of a normalized token: a digit, a small letter, the
    underscore or [#]. *)
Definition is_key_char (c : ascii) : bool :=
  let n := nat_of_ascii c in
  (((48 <=? n) && (n <=? 57)) || ((97 <=? n) && (n <=? 122))
   || (n =? 95) || (n =? 35))%nat.

(** The number of times the character occurs in the string. *)
Fixpoint count_char (c : ascii) (s : string) : nat :=
  match s with
  | EmptyString => 0
  | String c' rest => (if Ascii.eqb c' c then 1 else 0) + count_char c rest
  end.

(** The fields joined by tabulators, as a line of the file has them. *)
Fixpoint join_fields (fields : list string) : string :=
  match fields with
  | [] => EmptyString
  | [field] => field
  | field :: rest => String.append field (String SEPARATOR (join_fields rest))
  end.

(** ** Vocabulary of the statements on the index *)

Definition strictly_descending (postings : list nat) : Prop :=
  StronglySorted (λ d d', d' < d) postings.

(** A postings list as the data model wants it. *)
Definition postings_ok (postings : list nat) : Prop :=
  postings ≠ [] ∧ strictly_descending postings ∧ NoDup postings.

Definition dictionary_ok (dictionary : gmap string DictionaryItem) : Prop :=
  ∀ type item, dictionary !! type = Some item → postings_ok (postingsList item).

(** The text field of the line is absent, empty, or empty once
    preprocessed. *)
Definition text_missing (line : string) : Prop :=
  line_tweetText line = None
  ∨ line_tweetText line = Some EmptyString
  ∨ ∃ tweetText, line_tweetText line = Some tweetText
                 ∧ preprocess tweetText = EmptyString.

(** The line is indexed and [type] is one of its types. *)
Definition has_type (type : string) (line : string) : bool :=
  match line_types line with
  | Some types => JS.includes types type
  | None => false
  end.

(** The numbers of the lines that have [type], in ascending order, when
    the first of [lines] has the number [first]. *)
Fixpoint lines_with (type : string) (lines : list string) (first : nat)
  : list nat :=
  match lines with
  | [] => []
  | line :: rest =>
      (if has_type type line then [first] else [])
      ++ lines_with type rest (S first)
  end.

(** The entry that the index is to hold for [type] after [lines]. *)
Definition expected_entry (type : string) (lines : list string)
  : option DictionaryItem :=
  match lines_with type lines 0 with
  | [] => None
  | numbers =>
      Some {| term := type;
              size := length numbers;
              postingsList := reverse numbers |}
  end.

(** The entry of the table of ids that is to be found at [number]. *)
Definition expected_id (lines : list string) (number : nat) : option string :=
  match lines !! number with
  | Some line =>
      match line_types line with
      | Some _ => Some (line_id line)
      | None => None
      end
  | None => None
  end.

(** The entry of a type once [index_type] has run on it at line [number]. *)
Definition touched (number : nat) (type : string) (old : option DictionaryItem)
  : DictionaryItem :=
  match old with
  | Some dictionaryItem =>
      {| term := term dictionaryItem;
         size := size dictionaryItem + 1;
         postingsList := number :: postingsList dictionaryItem |}
  | None => {| term := type; size := 1; postingsList := [number] |}
  end.

(** ** Vocabulary of the statements on queries *)

(** The members of [itemA] that are members of [itemB] too, in the order of
    [itemA]. *)
Definition keep_common (itemB itemA : list nat) : list nat :=
  List.filter (λ d, bool_decide (d ∈ itemB)) itemA.

(** The members of [itemA] that are members of every list of [others]. *)
Definition intersect_all (itemA : list nat) (others : list (list nat))
  : list nat :=
  fold_left (λ result itemB, keep_common itemB result) others itemA.

(** * Properties *)

(** ** Strings *)

Lemma includes_true (arr : list string) (x : string) :
  JS.includes arr x = true ↔ x ∈ arr.
Proof.
  unfold JS.includes. rewrite existsb_exists. split.
  - intros (y & Hy & Heq). apply String.eqb_eq in Heq. subst y.
    by apply list_elem_of_In.
  - intros Hx. exists x. split; [by apply list_elem_of_In | apply String.eqb_refl].
Qed.

Lemma includes_false (arr : list string) (x : string) :
  JS.includes arr x = false ↔ x ∉ arr.
Proof.
  rewrite <- includes_true. destruct (JS.includes arr x); split; congruence.
Qed.

Lemma string_cons_neq (c : ascii) (s : string) : String c s ≠ s.
Proof.
  intros H. apply (f_equal String.length) in H. simpl in H. lia.
Qed.

Lemma startsWith_hash_inv (token : string) :
  JS.startsWith_hash token = true →
  token = String "#" (JS.replace_hash token).
Proof.
  destruct token as [|c rest]; simpl; [done|].
  intros H. rewrite H. apply Ascii.eqb_eq in H. by subst c.
Qed.

Lemma replace_hash_neq (token : string) :
  JS.startsWith_hash token = true → JS.replace_hash token ≠ token.
Proof.
  intros H Heq. apply startsWith_hash_inv in H. rewrite Heq in H.
  symmetry in H. by apply string_cons_neq in H.
Qed.

(** ** Preprocess *)

Lemma is_unnecessary_class (c : ascii) :
  is_unnecessary c
  = negb (is_digit c || is_letter c || Ascii.eqb c "#" || Ascii.eqb c "_").
Proof. destruct c as [[] [] [] [] [] [] [] []]; reflexivity. Qed.

(** C7 fails on the underscore. The underscore is no digit, no letter and
    not [#], and [preprocess] leaves it in place, since [\w] matches it.
    The markers and the other characters outside the class go to a space
    each. *)
Theorem preprocess_keeps_underscore :
  is_digit "_" = false ∧ is_letter "_" = false ∧ Ascii.eqb "_" "#" = false
  ∧ is_unnecessary "_" = false
  ∧ preprocess "snake_case" = "snake_case"
  ∧ preprocess "a[NEWLINE]b[TAB]c, d#1" = "a b c  d#1"
  ∧ ∀ c, is_unnecessary c
         = negb (is_digit c || is_letter c || Ascii.eqb c "#" || Ascii.eqb c "_").
Proof. split_and!; try reflexivity. apply is_unnecessary_class. Qed.

(** A character other than [[] is replaced on its own. *)
Lemma preprocess_char (c : ascii) (rest : string) :
  c ≠ "["%char →
  preprocess (String c rest)
  = String (if is_unnecessary c then " "%char else c) (preprocess rest).
Proof.
  intros Hc. unfold preprocess. cbn [preprocess_from String.prefix].
  destruct (ascii_dec "[" c) as [Heq|_]; [by subst c|].
  by destruct (is_unnecessary c).
Qed.

(** Only the empty text is empty once preprocessed. *)
Lemma preprocess_empty (text : string) :
  preprocess text = EmptyString → text = EmptyString.
Proof.
  destruct text as [|c rest]; [done|].
  unfold preprocess. cbn [preprocess_from].
  destruct (String.prefix "[NEWLINE]" (String c rest)); [done|].
  destruct (String.prefix "[TAB]" (String c rest)); [done|].
  by destruct (is_unnecessary c).
Qed.

(** ** Collect Types *)

Lemma collectTypes_step_new (types : list string) (token : string) :
  collectTypes_step types token = types ++ new_types types token.
Proof.
  unfold collectTypes_step, new_types.
  destruct (JS.includes types token); [by rewrite app_nil_r|].
  destruct (JS.startsWith_hash token); simpl; [|done].
  by destruct (JS.includes types (JS.replace_hash token)).
Qed.

Lemma collectTypes_app (pre post : list string) :
  collectTypes (pre ++ post) = fold_left collectTypes_step post (collectTypes pre).
Proof. apply fold_left_app. Qed.

Lemma collectTypes_snoc (pre : list string) (token : string) :
  collectTypes (pre ++ [token]) = collectTypes pre ++ new_types (collectTypes pre) token.
Proof. rewrite collectTypes_app. simpl. apply collectTypes_step_new. Qed.

Lemma collect_fold_prefix (tokens types : list string) :
  types `prefix_of` fold_left collectTypes_step tokens types.
Proof.
  revert types. induction tokens as [|t tokens IH]; intros types; simpl; [done|].
  etrans; [|apply IH]. rewrite collectTypes_step_new. by apply prefix_app_r.
Qed.

Lemma collectTypes_prefix (pre post : list string) :
  collectTypes pre `prefix_of` collectTypes (pre ++ post).
Proof. rewrite collectTypes_app. apply collect_fold_prefix. Qed.

Lemma new_types_NoDup (types : list string) (token : string) :
  NoDup types → NoDup (types ++ new_types types token).
Proof.
  intros Hnd. unfold new_types.
  destruct (JS.includes types token) eqn:Htok; [by rewrite app_nil_r|].
  apply includes_false in Htok.
  destruct (JS.startsWith_hash token) eqn:Hhash; simpl.
  - destruct (JS.includes types (JS.replace_hash token)) eqn:Hstr; simpl.
    + apply NoDup_app. split_and!; [done| |apply NoDup_singleton].
      intros x Hx Hx'. apply list_elem_of_singleton in Hx'. by subst x.
    + apply includes_false in Hstr. apply replace_hash_neq in Hhash.
      apply NoDup_app. split_and!; [done| |].
      * intros x Hx Hx'. apply elem_of_cons in Hx' as [->|Hx']; [done|].
        apply list_elem_of_singleton in Hx'. by subst x.
      * apply NoDup_cons. split; [|apply NoDup_singleton].
        intros Hin. apply list_elem_of_singleton in Hin. congruence.
  - apply NoDup_app. split_and!; [done| |apply NoDup_singleton].
    intros x Hx Hx'. apply list_elem_of_singleton in Hx'. by subst x.
Qed.

Lemma collect_fold_NoDup (tokens types : list string) :
  NoDup types → NoDup (fold_left collectTypes_step tokens types).
Proof.
  revert types. induction tokens as [|t tokens IH]; intros types Hnd; simpl; [done|].
  apply IH. rewrite collectTypes_step_new. by apply new_types_NoDup.
Qed.

Lemma collectTypes_NoDup (tokens : list string) : NoDup (collectTypes tokens).
Proof. apply collect_fold_NoDup, NoDup_nil_2. Qed.

Lemma collectTypes_step_keeps_token (types : list string) (token : string) :
  token ∈ collectTypes_step types token.
Proof.
  rewrite collectTypes_step_new. unfold new_types.
  destruct (JS.includes types token) eqn:Htok.
  - apply includes_true in Htok. rewrite app_nil_r. done.
  - apply elem_of_app. right.
    destruct (_ && _); apply elem_of_cons; by left.
Qed.

Lemma collectTypes_token (tokens : list string) (token : string) :
  token ∈ tokens → token ∈ collectTypes tokens.
Proof.
  intros Hin. apply list_elem_of_split in Hin as (pre & post & ->).
  replace (pre ++ token :: post) with ((pre ++ [token]) ++ post)
    by (by rewrite <- app_assoc).
  destruct (collectTypes_prefix (pre ++ [token]) post) as [more ->].
  apply elem_of_app. left.
  rewrite collectTypes_app. simpl. apply collectTypes_step_keeps_token.
Qed.

Lemma type_of_tokens_mono (l1 l2 : list string) (type : string) :
  l1 ⊆ l2 → type_of_tokens l1 type → type_of_tokens l2 type.
Proof.
  intros Hsub [H|(t & Ht & Hh & ->)]; [left|right]; [by apply Hsub|].
  exists t. split_and!; [by apply Hsub|done|done].
Qed.

Lemma collectTypes_origin (tokens : list string) :
  Forall (type_of_tokens tokens) (collectTypes tokens).
Proof.
  induction tokens as [|token pre IH] using rev_ind; [by constructor|].
  rewrite collectTypes_snoc. apply Forall_app. split.
  - eapply Forall_impl; [exact IH|]. intros type. simpl.
    apply type_of_tokens_mono. set_solver.
  - unfold new_types. destruct (JS.includes _ token); [by constructor|].
    destruct (JS.startsWith_hash token) eqn:Hh; simpl.
    + destruct (JS.includes _ (JS.replace_hash token)); simpl.
      * constructor; [|constructor]. left. set_solver.
      * constructor; [left; set_solver|]. constructor; [|constructor].
        right. exists token. split_and!; [set_solver|done|done].
    + constructor; [|constructor]. left. set_solver.
Qed.

Lemma new_types_hash_empty (types : list string) (token : string) :
  token ≠ "##" →
  ("#" ∈ types → EmptyString ∈ types) →
  "#" ∈ types ++ new_types types token → EmptyString ∈ types ++ new_types types token.
Proof.
  intros Hne Hinv Hin. apply elem_of_app.
  apply elem_of_app in Hin as [Hin|Hin]; [left; by apply Hinv|].
  unfold new_types in *.
  destruct (JS.includes types token) eqn:Htok; [by apply elem_of_nil in Hin|].
  destruct (JS.startsWith_hash token) eqn:Hh; simpl in *.
  - destruct (JS.includes types (JS.replace_hash token)) eqn:Hstr; simpl in *.
    + apply list_elem_of_singleton in Hin. subst token.
      left. by apply includes_true in Hstr.
    + apply elem_of_cons in Hin as [Hin|Hin].
      * subst token. right. simpl. set_solver.
      * apply list_elem_of_singleton in Hin.
        apply startsWith_hash_inv in Hh. rewrite <- Hin in Hh. done.
  - apply list_elem_of_singleton in Hin. subst token. done.
Qed.

Lemma collect_fold_hash_empty (tokens types : list string) :
  "##" ∉ tokens →
  ("#" ∈ types → EmptyString ∈ types) →
  "#" ∈ fold_left collectTypes_step tokens types →
  EmptyString ∈ fold_left collectTypes_step tokens types.
Proof.
  revert types. induction tokens as [|t tokens IH]; intros types Hno Hinv; simpl; [done|].
  apply not_elem_of_cons in Hno as [Hne Hno].
  apply IH; [done|]. rewrite collectTypes_step_new.
  by apply new_types_hash_empty.
Qed.

Lemma collectTypes_standalone_hash (pre post : list string) :
  "##" ∉ pre → EmptyString ∈ collectTypes (pre ++ "#" :: post).
Proof.
  intros Hno.
  replace (pre ++ "#" :: post) with ((pre ++ ["#"]) ++ post)
    by (by rewrite <- app_assoc).
  destruct (collectTypes_prefix (pre ++ ["#"]) post) as [more ->].
  apply elem_of_app. left.
  apply collect_fold_hash_empty.
  - intros Hin. apply elem_of_app in Hin as [Hin|Hin]; [done|].
    by apply list_elem_of_singleton in Hin.
  - intros Hin. by apply elem_of_nil in Hin.
  - apply collectTypes_token. set_solver.
Qed.

Lemma new_types_expanded (types : list string) (token type : string) :
  JS.startsWith_hash type = true →
  token ≠ String "#" type →
  (type ∈ types → JS.replace_hash type ∈ types) →
  type ∈ types ++ new_types types token →
  JS.replace_hash type ∈ types ++ new_types types token.
Proof.
  intros Hhash Hne Hinv Hin. apply elem_of_app.
  apply elem_of_app in Hin as [Hin|Hin]; [left; by apply Hinv|].
  unfold new_types in *.
  destruct (JS.includes types token) eqn:Htok; [by apply elem_of_nil in Hin|].
  destruct (JS.startsWith_hash token) eqn:Hh; cbn [andb] in *.
  - destruct (JS.includes types (JS.replace_hash token)) eqn:Hstr; cbn [negb] in *.
    + apply list_elem_of_singleton in Hin. subst type.
      left. by apply includes_true.
    + apply elem_of_cons in Hin as [Hin|Hin].
      * subst type. right. apply elem_of_cons. right. apply elem_of_cons. by left.
      * apply list_elem_of_singleton in Hin. subst type.
        exfalso. apply Hne. by apply startsWith_hash_inv.
  - apply list_elem_of_singleton in Hin. subst type. congruence.
Qed.

Lemma collect_fold_expanded (tokens types : list string) (type : string) :
  JS.startsWith_hash type = true →
  String "#" type ∉ tokens →
  (type ∈ types → JS.replace_hash type ∈ types) →
  type ∈ fold_left collectTypes_step tokens types →
  JS.replace_hash type ∈ fold_left collectTypes_step tokens types.
Proof.
  intros Hhash. revert types.
  induction tokens as [|t tokens IH]; intros types Hno Hinv; simpl; [done|].
  apply not_elem_of_cons in Hno as [Hne Hno].
  apply IH; [done|]. rewrite collectTypes_step_new.
  apply new_types_expanded; [done| |done]. congruence.
Qed.

Lemma collectTypes_hashtag_expanded (pre post : list string) (token : string) :
  JS.startsWith_hash token = true →
  String "#" token ∉ pre →
  JS.replace_hash token ∈ collectTypes (pre ++ token :: post).
Proof.
  intros Hhash Hno.
  replace (pre ++ token :: post) with ((pre ++ [token]) ++ post)
    by (by rewrite <- app_assoc).
  destruct (collectTypes_prefix (pre ++ [token]) post) as [more ->].
  apply elem_of_app. left.
  apply collect_fold_expanded; [done| | |].
  - intros Hin. apply elem_of_app in Hin as [Hin|Hin]; [done|].
    apply list_elem_of_singleton in Hin. by apply string_cons_neq in Hin.
  - intros Hin. by apply elem_of_nil in Hin.
  - apply collectTypes_token, elem_of_app. right. apply elem_of_cons. by left.
Qed.

(** C6, as amended. For every sequence of tokens, Collect Types returns a
    list without duplicates that holds every token, and nothing but tokens
    and stripped hashtag tokens, in the order of first appearance: what a
    later token adds comes after what is there. A token already among the
    types collected so far adds nothing; any other token is added, and one
    that starts with [#] is followed by its stripped form unless that form
    is already among the types collected so far. A token that starts with
    [#] and has no token before it that is the same token with one more
    [#] in front has its stripped form among the types: a document with
    [#covid] and no [##covid] before it yields [#covid] and [covid].
    [#covid] alone gives [#covid] and [covid]; [covid #covid] gives [covid]
    and [#covid]. *)
Theorem collectTypes_first_seen_rule (pre : list string) (token : string)
    (post : list string) :
  let tokens := pre ++ token :: post in
  NoDup (collectTypes tokens)
  ∧ token ∈ collectTypes tokens
  ∧ Forall (type_of_tokens tokens) (collectTypes tokens)
  ∧ collectTypes (pre ++ [token])
    = collectTypes pre ++ new_types (collectTypes pre) token
  ∧ collectTypes (pre ++ [token]) `prefix_of` collectTypes tokens
  ∧ (JS.startsWith_hash token = true →
     String "#" token ∉ pre →
     JS.replace_hash token ∈ collectTypes tokens)
  ∧ (token = "#covid" → "##covid" ∉ pre →
     "#covid" ∈ collectTypes tokens ∧ "covid" ∈ collectTypes tokens)
  ∧ collectTypes ["#covid"] = ["#covid"; "covid"]
  ∧ collectTypes ["covid"; "#covid"] = ["covid"; "#covid"].
Proof.
  intros tokens.
  assert (Htoken : token ∈ collectTypes tokens).
  { apply collectTypes_token. subst tokens. apply elem_of_app. right.
    apply elem_of_cons. by left. }
  split_and!.
  - apply collectTypes_NoDup.
  - done.
  - apply collectTypes_origin.
  - apply collectTypes_snoc.
  - subst tokens.
    replace (pre ++ token :: post) with ((pre ++ [token]) ++ post)
      by (by rewrite <- app_assoc).
    apply collectTypes_prefix.
  - intros Hhash Hno. by apply collectTypes_hashtag_expanded.
  - intros -> Hno. split; [done|].
    by apply (collectTypes_hashtag_expanded pre post "#covid").
  - reflexivity.
  - reflexivity.
Qed.

Lemma collectTypes_first_seen_rule_witness :
  "covid" ∈ collectTypes (["the"; "new"] ++ "#covid" :: ["vaccine"]).
Proof.
  destruct (collectTypes_first_seen_rule ["the"; "new"] "#covid" ["vaccine"])
    as (_ & _ & _ & _ & _ & Hexpanded & _).
  apply Hexpanded.
  - reflexivity.
  - intros Hin. apply elem_of_cons in Hin as [Heq|Hin]; [discriminate Heq|].
    apply list_elem_of_singleton in Hin. discriminate Hin.
Defined.

(** On [##covid #covid] the document has the token [#covid] and no type
    [covid]: the proviso on the token before is needed. *)
Lemma collectTypes_longer_hashtag_before :
  collectTypes ["##covid"; "#covid"] = ["##covid"; "#covid"].
Proof. reflexivity. Qed.

(** The rule as the specification words it differs from the code on
    [##x #x]: the token [#x] starts with [#] and its stripped form [x] is
    not among the types collected so far, yet [x] is not added, because
    [#x] itself already is there as the stripped form of [##x]. *)
Lemma collectTypes_repeated_hashtag :
  collectTypes ["##x"; "#x"] = ["##x"; "#x"]
  ∧ collectTypes_spec ["##x"; "#x"] = ["##x"; "#x"; "x"]
  ∧ collectTypes ["##x"; "#x"] ≠ collectTypes_spec ["##x"; "#x"].
Proof. split_and!; [reflexivity|reflexivity|discriminate]. Qed.

Lemma collectTypes_step_spec (types : list string) (token : string) :
  hashtags_expanded types →
  collectTypes_step types token = collectTypes_spec_step types token.
Proof.
  intros Hinv. unfold collectTypes_step, collectTypes_spec_step, add_type.
  destruct (JS.includes types token) eqn:Htok.
  - apply includes_true in Htok.
    destruct (JS.startsWith_hash token) eqn:Hh; [|done].
    specialize (Hinv token Htok Hh). apply includes_true in Hinv.
    by rewrite Hinv.
  - destruct (JS.startsWith_hash token) eqn:Hh; [|done].
    destruct (JS.includes types (JS.replace_hash token)) eqn:Hstr; [done|].
    assert (Hfresh : JS.includes (types ++ [token]) (JS.replace_hash token) = false).
    { apply includes_false. intros Hin.
      apply elem_of_app in Hin as [Hin|Hin].
      - by apply includes_false in Hstr.
      - apply list_elem_of_singleton in Hin. by apply replace_hash_neq in Hh. }
    rewrite Hfresh. by rewrite <- app_assoc.
Qed.

Lemma collectTypes_step_expanded (types : list string) (token : string) :
  double_hash token = false →
  hashtags_expanded types →
  hashtags_expanded (collectTypes_step types token).
Proof.
  intros Hdouble Hinv type Hin Hh.
  rewrite collectTypes_step_new in *. apply elem_of_app.
  apply elem_of_app in Hin as [Hin|Hin]; [left; by apply Hinv|].
  unfold new_types, double_hash in *.
  destruct (JS.includes types token) eqn:Htok; [by apply elem_of_nil in Hin|].
  destruct (JS.startsWith_hash token) eqn:Htoken; simpl in *.
  - destruct (JS.includes types (JS.replace_hash token)) eqn:Hstr; simpl in *.
    + apply list_elem_of_singleton in Hin. subst type.
      left. by apply includes_true.
    + apply elem_of_cons in Hin as [->|Hin].
      * right. apply elem_of_cons. right. apply elem_of_cons. by left.
      * apply list_elem_of_singleton in Hin. subst type. congruence.
  - apply list_elem_of_singleton in Hin. subst type. congruence.
Qed.

(** On tokens none of which starts with two [#], the code and the rule as
    the specification words it collect the same types. *)
Lemma collectTypes_spec_agrees (tokens : list string) :
  Forall (λ token, double_hash token = false) tokens →
  collectTypes tokens = collectTypes_spec tokens.
Proof.
  intros Hall. unfold collectTypes, collectTypes_spec.
  assert (Hinv : hashtags_expanded []).
  { intros type Hin. by apply elem_of_nil in Hin. }
  revert Hinv. generalize (@nil string) as types.
  induction Hall as [|token tokens Hd Hall IH]; intros types Hinv; [done|].
  simpl. rewrite <- collectTypes_step_spec by done.
  apply IH. by apply collectTypes_step_expanded.
Qed.

(** C10. A token that starts with [#] loses its first character and no
    other when it is stripped: it is [#] followed by its stripped form. The
    token [##x] adds itself and [#x], and never [x]. *)
Theorem replace_hash_first_only (types : list string) (token : string) :
  JS.startsWith_hash token = true →
  token = String "#" (JS.replace_hash token)
  ∧ new_types types token ⊆ [token; JS.replace_hash token]
  ∧ JS.replace_hash "##x" = "#x"
  ∧ collectTypes ["##x"] = ["##x"; "#x"]
  ∧ collectTypes_step types "##x"
    = types ++ (if JS.includes types "##x" then []
                else if JS.includes types "#x" then ["##x"] else ["##x"; "#x"]).
Proof.
  intros Hh. split_and!.
  - by apply startsWith_hash_inv.
  - unfold new_types. destruct (JS.includes types token).
    { apply list_subseteq_nil. }
    destruct (_ && _); [done|].
    intros type Hin. apply list_elem_of_singleton in Hin. subst type.
    apply elem_of_cons. by left.
  - reflexivity.
  - reflexivity.
  - rewrite collectTypes_step_new. unfold new_types. simpl.
    destruct (JS.includes types "##x"); [done|].
    by destruct (JS.includes types "#x").
Qed.

Lemma replace_hash_first_only_witness :
  JS.startsWith_hash "##x" = true
  ∧ "##x" = String "#" (JS.replace_hash "##x").
Proof.
  split; [reflexivity|].
  apply (replace_hash_first_only [] "##x"). reflexivity.
Defined.

(** ** The sparse array of ids *)

Lemma array_get_set (arr : list (option string)) (i j : nat) (v : string) :
  JS.array_get (JS.array_set arr i v) j
  = if decide (i = j) then Some v else JS.array_get arr j.
Proof.
  unfold JS.array_get, JS.array_set.
  destruct (i <? length arr) eqn:Hlt.
  - apply Nat.ltb_lt in Hlt. case_decide as Hij.
    + subst j. by rewrite list_lookup_insert_eq.
    + by rewrite list_lookup_insert_ne.
  - apply Nat.ltb_ge in Hlt. case_decide as Hij.
    + subst j. rewrite lookup_app_r by done.
      rewrite lookup_app_r by (rewrite length_replicate; lia).
      rewrite length_replicate.
      by replace (i - length arr - (i - length arr)) with 0 by lia.
    + destruct (decide (j < length arr)) as [Hj|Hj].
      { by rewrite lookup_app_l. }
      rewrite (lookup_ge_None_2 arr j) by lia.
      rewrite lookup_app_r by lia.
      destruct (decide (j < i)) as [Hji|Hji].
      * rewrite lookup_app_l by (rewrite length_replicate; lia).
        rewrite lookup_replicate_2 by lia. done.
      * rewrite lookup_app_r by (rewrite length_replicate; lia).
        rewrite length_replicate.
        rewrite lookup_ge_None_2; [done|]. simpl. lia.
Qed.

(** ** One line of the file *)

Lemma index_lines_snoc (lines : list string) (line : string) :
  index_lines (lines ++ [line]) = index_line (index_lines lines) line.
Proof. unfold index_lines. by rewrite fold_left_app. Qed.

Lemma index_lines_lineNumber (lines : list string) :
  lineNumber (index_lines lines) = length lines.
Proof.
  induction lines as [|line lines IH] using rev_ind; [done|].
  rewrite index_lines_snoc, length_app. simpl.
  unfold index_line. destruct (line_types line); simpl; lia.
Qed.

Lemma line_types_NoDup (line : string) (types : list string) :
  line_types line = Some types → NoDup types.
Proof.
  unfold line_types. destruct (line_tweetText line) as [text|]; [|done].
  destruct (negb (JS.truthy text)); [done|].
  destruct (negb (JS.truthy (preprocess text))); [done|].
  intros [= <-]. apply collectTypes_NoDup.
Qed.

Lemma index_type_lookup (number : nat) (dictionary : gmap string DictionaryItem)
    (type other : string) :
  index_type number dictionary type !! other
  = if decide (type = other) then Some (touched number type (dictionary !! type))
    else dictionary !! other.
Proof.
  unfold index_type, touched.
  destruct (dictionary !! type) as [item|] eqn:Hget; by rewrite lookup_insert.
Qed.

Lemma fold_index_type_lookup (number : nat) (types : list string)
    (dictionary : gmap string DictionaryItem) (type : string) :
  NoDup types →
  fold_left (index_type number) types dictionary !! type
  = if decide (type ∈ types) then Some (touched number type (dictionary !! type))
    else dictionary !! type.
Proof.
  revert dictionary.
  induction types as [|ty rest IH]; intros dictionary Hnd; cbn [fold_left].
  { rewrite decide_False; [done|]. apply not_elem_of_nil. }
  apply NoDup_cons in Hnd as [Hty Hnd].
  rewrite IH by done. rewrite index_type_lookup. clear IH.
  destruct (decide (type ∈ rest)) as [Hin|Hin];
    destruct (decide (ty = type)) as [Heq|Hne];
    destruct (decide (type ∈ ty :: rest)) as [Hin'|Hin'].
  - subst ty. done.
  - subst ty. done.
  - done.
  - exfalso. apply Hin'. apply elem_of_cons. by right.
  - by subst ty.
  - exfalso. apply Hin'. apply elem_of_cons. by left.
  - apply elem_of_cons in Hin' as [->|Hin']; done.
  - done.
Qed.

(** ** The lines that have a type *)

Lemma lines_with_app (type : string) (l1 l2 : list string) (first : nat) :
  lines_with type (l1 ++ l2) first
  = lines_with type l1 first ++ lines_with type l2 (first + length l1).
Proof.
  revert first. induction l1 as [|line l1 IH]; intros first; simpl.
  - by rewrite Nat.add_0_r.
  - rewrite IH, <- app_assoc. by replace (S first + length l1) with (first + S (length l1)) by lia.
Qed.

Lemma lines_with_lookup (type : string) (lines : list string) (first d : nat) :
  d ∈ lines_with type lines first →
  first ≤ d ∧ ∃ line, lines !! (d - first) = Some line ∧ has_type type line = true.
Proof.
  revert first. induction lines as [|line lines IH]; intros first; simpl.
  { intros H. by apply elem_of_nil in H. }
  intros Hin. apply elem_of_app in Hin as [Hin|Hin].
  - destruct (has_type type line) eqn:Hty; [|by apply elem_of_nil in Hin].
    apply list_elem_of_singleton in Hin. subst d. split; [lia|].
    exists line. by rewrite Nat.sub_diag.
  - apply IH in Hin as (Hle & line' & Hget & Hty). split; [lia|].
    exists line'. split; [|done].
    by replace (d - first) with (S (d - S first)) by lia.
Qed.

Lemma lines_with_bound (type : string) (lines : list string) (first : nat) :
  Forall (λ d, first ≤ d < first + length lines) (lines_with type lines first).
Proof.
  apply Forall_forall. intros d Hd.
  apply lines_with_lookup in Hd as (Hle & line & Hget & _).
  apply lookup_lt_Some in Hget. lia.
Qed.

Lemma lines_with_ascending (type : string) (lines : list string) (first : nat) :
  StronglySorted lt (lines_with type lines first).
Proof.
  revert first. induction lines as [|line lines IH]; intros first; simpl.
  { constructor. }
  destruct (has_type type line); simpl; [|apply IH].
  constructor; [apply IH|].
  eapply Forall_impl; [apply lines_with_bound|]. simpl. lia.
Qed.

Lemma reverse_ascending (l : list nat) :
  StronglySorted lt l → strictly_descending (reverse l).
Proof.
  unfold strictly_descending.
  induction 1 as [|x l Hs IH Hall]; [constructor|].
  rewrite reverse_cons. apply StronglySorted_app_2; [|done|].
  - intros d d' Hd Hd'. apply list_elem_of_singleton in Hd'. subst d'.
    rewrite elem_of_reverse in Hd.
    exact (proj1 (Forall_forall (lt x) l) Hall d Hd).
  - constructor; constructor.
Qed.

Lemma descending_NoDup (postings : list nat) :
  strictly_descending postings → NoDup postings.
Proof.
  unfold strictly_descending. induction 1 as [|d l Hs IH Hall]; [constructor|].
  apply NoDup_cons. split; [|done].
  intros Hin. rewrite Forall_forall in Hall. specialize (Hall d Hin). lia.
Qed.

Lemma descending_cons (number : nat) (postings : list nat) :
  strictly_descending postings → Forall (λ d, d < number) postings →
  strictly_descending (number :: postings).
Proof. intros Hs Hall. by constructor. Qed.

(** ** What the index holds after the lines read so far *)

Lemma lines_with_snoc (type : string) (lines : list string) (line : string) :
  lines_with type (lines ++ [line]) 0
  = lines_with type lines 0
    ++ (if has_type type line then [length lines] else []).
Proof. rewrite lines_with_app. simpl. by rewrite app_nil_r. Qed.

Lemma has_type_types (type line : string) (types : list string) :
  line_types line = Some types →
  has_type type line = bool_decide (type ∈ types).
Proof.
  intros Hty. unfold has_type. rewrite Hty.
  destruct (JS.includes types type) eqn:Hin.
  - apply includes_true in Hin. by rewrite bool_decide_eq_true_2.
  - apply includes_false in Hin. by rewrite bool_decide_eq_false_2.
Qed.

Lemma expected_entry_postings (type : string) (lines : list string)
    (item : DictionaryItem) :
  expected_entry type lines = Some item →
  term item = type
  ∧ size item = length (postingsList item)
  ∧ postingsList item = reverse (lines_with type lines 0).
Proof.
  unfold expected_entry. destruct (lines_with type lines 0) as [|d l] eqn:Hl; [done|].
  intros [= <-]. simpl. by rewrite length_reverse.
Qed.

Lemma touched_expected (type : string) (lines : list string) :
  Some (touched (length lines) type (expected_entry type lines))
  = match lines_with type lines 0 ++ [length lines] with
    | [] => None
    | numbers =>
        Some {| term := type; size := length numbers;
                postingsList := reverse numbers |}
    end.
Proof.
  unfold expected_entry, touched.
  destruct (lines_with type lines 0) as [|d l]; [done|].
  cbn [app]. f_equal. f_equal.
  - cbn [size length]. rewrite length_app. simpl. lia.
  - cbn [postingsList]. by rewrite !reverse_cons, reverse_app.
Qed.

Lemma expected_entry_snoc (type : string) (lines : list string) (line : string) :
  expected_entry type (lines ++ [line])
  = if has_type type line
    then Some (touched (length lines) type (expected_entry type lines))
    else expected_entry type lines.
Proof.
  destruct (has_type type line) eqn:Hty.
  - rewrite touched_expected. unfold expected_entry.
    by rewrite lines_with_snoc, Hty.
  - unfold expected_entry. by rewrite lines_with_snoc, Hty, app_nil_r.
Qed.

Lemma index_lines_dictionary (lines : list string) (type : string) :
  dictionary (index_lines lines) !! type = expected_entry type lines.
Proof.
  induction lines as [|line lines IH] using rev_ind; [done|].
  rewrite index_lines_snoc, expected_entry_snoc. unfold index_line.
  destruct (line_types line) as [types|] eqn:Htypes; simpl.
  - rewrite fold_index_type_lookup by (by eapply line_types_NoDup).
    rewrite index_lines_lineNumber, IH.
    rewrite (has_type_types _ _ _ Htypes).
    destruct (decide (type ∈ types)) as [Hin|Hin].
    + by rewrite bool_decide_eq_true_2.
    + by rewrite bool_decide_eq_false_2.
  - rewrite IH. unfold has_type. by rewrite Htypes.
Qed.

Lemma index_lines_ids (lines : list string) (number : nat) :
  JS.array_get (ids (index_lines lines)) number = expected_id lines number.
Proof.
  revert number. induction lines as [|line lines IH] using rev_ind; intros number.
  { unfold expected_id. by rewrite lookup_nil. }
  rewrite index_lines_snoc. unfold index_line, expected_id.
  destruct (decide (number < length lines)) as [Hlt|Hge].
  - rewrite lookup_app_l by done.
    destruct (line_types line) as [types|]; simpl.
    + rewrite array_get_set, index_lines_lineNumber.
      rewrite decide_False by lia. apply IH.
    + apply IH.
  - assert (Hold : JS.array_get (ids (index_lines lines)) number = None).
    { rewrite IH. unfold expected_id. by rewrite lookup_ge_None_2 by lia. }
    rewrite lookup_app_r by lia.
    destruct (decide (number = length lines)) as [->|Hne].
    + rewrite Nat.sub_diag. simpl.
      destruct (line_types line) as [types|]; simpl; [|done].
      rewrite array_get_set, index_lines_lineNumber. by rewrite decide_True.
    + rewrite lookup_ge_None_2 by (simpl; lia).
      destruct (line_types line) as [types|]; simpl; [|done].
      rewrite array_get_set, index_lines_lineNumber. by rewrite decide_False.
Qed.

Lemma expected_entry_ok (type : string) (lines : list string)
    (item : DictionaryItem) :
  expected_entry type lines = Some item →
  postings_ok (postingsList item)
  ∧ Forall (λ d, d < length lines) (postingsList item).
Proof.
  intros Hitem.
  pose proof (expected_entry_postings _ _ _ Hitem) as (_ & _ & Hpost).
  assert (Hdesc : strictly_descending (postingsList item)).
  { rewrite Hpost. apply reverse_ascending, lines_with_ascending. }
  split; [split_and!|].
  - rewrite Hpost. unfold expected_entry in Hitem.
    destruct (lines_with type lines 0); [done|].
    rewrite reverse_cons. intros Hnil. by apply app_nil in Hnil as [_ ?].
  - done.
  - by apply descending_NoDup.
  - rewrite Hpost. apply Forall_reverse.
    eapply Forall_impl; [apply lines_with_bound|]. simpl. lia.
Qed.

Lemma text_missing_skipped (line : string) :
  text_missing line → line_types line = None.
Proof.
  unfold text_missing, line_types.
  intros [Hnone|[Hempty|(text & Hsome & Hpre)]].
  - by rewrite Hnone.
  - by rewrite Hempty.
  - rewrite Hsome. destruct (negb (JS.truthy text)); [done|].
    by rewrite Hpre.
Qed.

Lemma postings_have_type (lines : list string) (type : string)
    (item : DictionaryItem) (number : nat) :
  dictionary (index_lines lines) !! type = Some item →
  number ∈ postingsList item →
  ∃ line, lines !! number = Some line ∧ has_type type line = true.
Proof.
  rewrite index_lines_dictionary. intros Hitem Hin.
  apply expected_entry_postings in Hitem as (_ & _ & Hpost).
  rewrite Hpost, elem_of_reverse in Hin.
  apply lines_with_lookup in Hin as (_ & line & Hget & Hty).
  exists line. by rewrite Nat.sub_0_r in Hget.
Qed.

Lemma to_array_app (currentItem result : list nat) :
  to_array currentItem result = result ++ currentItem.
Proof.
  revert result. induction currentItem as [|d next IH]; intros result; simpl.
  - by rewrite app_nil_r.
  - by rewrite IH, <- app_assoc.
Qed.

(** C3. After the lines read so far, and after every run of the callback
    of [types.forEach] on the types of the next line, every postings list
    of the dictionary is non-empty, strictly descending in the line number
    and without duplicates. Three insertions for one term at the lines 0, 1
    and 2 give the list 2, 1, 0. *)
Theorem index_postings_invariant (lines : list string) (line : string)
    (processed pending : list string) :
  line_types line = Some (processed ++ pending) →
  let st := index_lines lines in
  dictionary_ok (dictionary st)
  ∧ dictionary_ok
      (fold_left (index_type (lineNumber st)) processed (dictionary st))
  ∧ dictionary (index_line st line)
    = fold_left (index_type (lineNumber st)) pending
        (fold_left (index_type (lineNumber st)) processed (dictionary st))
  ∧ index_type 2 (index_type 1 (index_type 0 ∅ "covid") "covid") "covid"
    = {[ "covid" := {| term := "covid"; size := 3; postingsList := [2; 1; 0] |} ]}.
Proof.
  intros Htypes st. split_and!.
  - intros type item Hitem. subst st. rewrite index_lines_dictionary in Hitem.
    by apply expected_entry_ok in Hitem as [Hok _].
  - intros type item. subst st.
    pose proof (line_types_NoDup _ _ Htypes) as Hnd.
    apply NoDup_app in Hnd as (Hnd & _ & _).
    rewrite fold_index_type_lookup by done.
    rewrite index_lines_lineNumber, index_lines_dictionary.
    destruct (decide (type ∈ processed)) as [Hin|Hin].
    + intros [= <-]. unfold touched.
      destruct (expected_entry type lines) as [old|] eqn:Hold; simpl.
      * apply expected_entry_ok in Hold as ((_ & Hdesc & _) & Hlt).
        assert (Hdesc' : strictly_descending (length lines :: postingsList old))
          by (by apply descending_cons).
        split_and!; [done|done|by apply descending_NoDup].
      * split_and!; [done| |apply NoDup_singleton].
        constructor; constructor.
    + intros Hitem. by apply expected_entry_ok in Hitem as [Hok _].
  - unfold index_line. rewrite Htypes. simpl. by rewrite fold_left_app.
  - apply map_eq. intros type. rewrite !index_type_lookup.
    destruct (decide ("covid" = type)) as [<-|Hne].
    + by rewrite lookup_singleton_eq.
    + rewrite lookup_singleton_ne by done. by rewrite lookup_empty.
Qed.

(** C5. On the index of any file, the query of one term that has an entry
    returns as many results as the entry's document frequency, in the order
    of the postings list, which is strictly descending in the line number;
    every result is the id of the line of that number, read from the table
    of ids. The query of a term without an entry returns the empty
    sequence. *)
Theorem single_term_query (lines : list string) (term0 : string) :
  let '(dictionary, idsMap) := index lines in
  match dictionary !! term0 with
  | Some item =>
      query_lines dictionary [term0] = postingsList item
      ∧ length (query dictionary idsMap [term0]) = size item
      ∧ strictly_descending (query_lines dictionary [term0])
      ∧ query dictionary idsMap [term0]
        = List.map (JS.array_get idsMap) (postingsList item)
      ∧ Forall2 (λ number result,
                   ∃ line, lines !! number = Some line
                           ∧ result = Some (line_id line))
          (postingsList item) (query dictionary idsMap [term0])
  | None => query dictionary idsMap [term0] = []
  end.
Proof.
  unfold index, query, query_lines, postings_head.
  destruct (dictionary (index_lines lines) !! term0) as [item|] eqn:Hitem;
    [|done].
  rewrite to_array_app. simpl.
  pose proof Hitem as Hexp. rewrite index_lines_dictionary in Hexp.
  pose proof (expected_entry_postings _ _ _ Hexp) as (_ & Hsize & _).
  pose proof (expected_entry_ok _ _ _ Hexp) as ((_ & Hdesc & _) & _).
  split_and!; [done|by rewrite length_map|done|done|].
  apply Forall2_fmap_r, Forall_Forall2_diag, Forall_forall.
  intros number Hin.
  destruct (postings_have_type _ _ _ _ Hitem Hin) as (line & Hget & Hty).
  exists line. split; [done|].
  rewrite index_lines_ids. unfold expected_id. rewrite Hget.
  unfold has_type in Hty. by destruct (line_types line).
Qed.

(** C8. A line whose text field is absent, empty, or empty once
    preprocessed makes the indexer add one to the line number and nothing
    else: the dictionary and the table of ids stay as they are. In the
    index of a file, the table of ids has no entry at the number of such a
    line, and this number is in no postings list. *)
Theorem skipped_line_frame (lines : list string) (number : nat) (line : string)
    (st : IndexState) :
  lines !! number = Some line →
  text_missing line →
  index_line st line
  = {| lineNumber := lineNumber st + 1;
       dictionary := dictionary st;
       ids := ids st |}
  ∧ JS.array_get (ids (index_lines lines)) number = None
  ∧ ∀ type item,
      dictionary (index_lines lines) !! type = Some item →
      number ∉ postingsList item.
Proof.
  intros Hget Hmiss. apply text_missing_skipped in Hmiss. split_and!.
  - unfold index_line. by rewrite Hmiss.
  - rewrite index_lines_ids. unfold expected_id. by rewrite Hget, Hmiss.
  - intros type item Hitem Hin.
    destruct (postings_have_type _ _ _ _ Hitem Hin) as (line' & Hget' & Hty).
    rewrite Hget in Hget'. injection Hget' as <-.
    unfold has_type in Hty. by rewrite Hmiss in Hty.
Qed.

Lemma skipped_line_frame_witness :
  let lines := [tweet "t1" EmptyString; tweet "t2" "hello world"] in
  JS.array_get (ids (index_lines lines)) 0 = None.
Proof.
  intros lines.
  apply (skipped_line_frame lines 0 (tweet "t1" EmptyString) index_init).
  - reflexivity.
  - right. left. reflexivity.
Defined.

Lemma index_postings_invariant_witness :
  dictionary_ok
    (fold_left (index_type 1) ["hello"]
       (dictionary (index_lines [tweet "t1" "hello"]))).
Proof.
  apply (index_postings_invariant [tweet "t1" "hello"]
           (tweet "t2" "hello world") ["hello"] ["world"]).
  reflexivity.
Defined.

(** The scenario of the specification: the first of two lines has an empty
    text. The table of ids has a hole at 0 and the id of the second line
    at 1, and the postings lists hold the number 1 only. *)
Example skipped_then_indexed :
  let '(dictionary, idsMap) :=
    index [tweet "t1" EmptyString; tweet "t2" "hello world"] in
  idsMap = [None; Some "t2"]
  ∧ dictionary
    = {[ "hello" := {| term := "hello"; size := 1; postingsList := [1] |};
         "world" := {| term := "world"; size := 1; postingsList := [1] |} ]}.
Proof.
  split; [reflexivity|].
  apply map_eq. intros type. unfold index_lines. cbn [fold_left].
  destruct (decide (type = "hello")) as [->|Hh]; [reflexivity|].
  destruct (decide (type = "world")) as [->|Hw]; [reflexivity|].
  rewrite lookup_insert_ne by done. rewrite lookup_singleton_ne by done.
  change (dictionary (index_lines [tweet "t1" EmptyString; tweet "t2" "hello world"])
            !! type = None).
  rewrite index_lines_dictionary. unfold expected_entry.
  cbn [lines_with]. unfold has_type.
  replace (line_types (tweet "t1" EmptyString)) with (@None (list string)) by reflexivity.
  replace (line_types (tweet "t2" "hello world"))
    with (Some ["hello"; "world"]) by reflexivity.
  unfold JS.includes. cbn [existsb].
  destruct (String.eqb_spec type "hello") as [->|_]; [done|].
  destruct (String.eqb_spec type "world") as [->|_]; [done|].
  reflexivity.
Qed.

(** ** A standalone [#] *)

Lemma lower_char_hash (c : ascii) : JS.lower_char c = "#"%char → c = "#"%char.
Proof.
  destruct c as [[] [] [] [] [] [] [] []]; vm_compute; congruence.
Qed.

Lemma toLowerCase_hashes (s : string) :
  (JS.toLowerCase s = "#" → s = "#") ∧ (JS.toLowerCase s = "##" → s = "##").
Proof.
  split.
  - destruct s as [|c [|c' s]]; simpl; try done.
    intros [= Hc]. apply lower_char_hash in Hc. by subst c.
  - destruct s as [|c [|c' [|c'' s]]]; simpl; try done.
    intros [= Hc Hc']. apply lower_char_hash in Hc, Hc'. by subst c c'.
Qed.

Lemma normalize_no_double_hash (tokens : list string) :
  "##" ∉ tokens → "##" ∉ normalize tokens.
Proof.
  intros Hno Hin. unfold normalize in Hin.
  apply list_elem_of_In, in_map_iff in Hin as (token & Hlow & Hin).
  apply toLowerCase_hashes in Hlow. subst token.
  by apply list_elem_of_In in Hin.
Qed.

Lemma tokens_text_truthy (text : string) (tokens : list string) :
  tokenize (preprocess text) = tokens → tokens ≠ [] →
  JS.truthy text = true ∧ JS.truthy (preprocess text) = true.
Proof.
  intros Htok Hne. destruct text as [|c text].
  { subst tokens. by vm_compute in Hne. }
  split; [done|].
  destruct (preprocess (String c text)) eqn:Hpre; [|done].
  subst tokens. by vm_compute in Hne.
Qed.

(** C9, as amended. [tokenize] keeps the token [#], and Collect Types
    follows it with the empty string. A line whose tokens have a [#] with
    no token [##] before it gets a dictionary entry whose term is the
    empty string and whose postings list starts with the number of the
    line. *)
Theorem standalone_hash_entry (lines : list string) (line tweetText : string)
    (pre post : list string) :
  line_tweetText line = Some tweetText →
  tokenize (preprocess tweetText) = pre ++ "#" :: post →
  "##" ∉ pre →
  tokenize "#" = ["#"]
  ∧ collectTypes ["#"] = ["#"; EmptyString]
  ∧ ∃ item,
      dictionary (index_line (index_lines lines) line) !! EmptyString = Some item
      ∧ term item = EmptyString
      ∧ head (postingsList item) = Some (length lines).
Proof.
  intros Htext Htok Hno. split_and!; [reflexivity|reflexivity|].
  destruct (tokens_text_truthy _ _ Htok) as [Ht Hp].
  { intros Hnil. by apply app_nil in Hnil as [_ ?]. }
  assert (Htypes : line_types line
                   = Some (collectTypes (normalize pre ++ "#" :: normalize post))).
  { unfold line_types. rewrite Htext, Ht, Hp. simpl. rewrite Htok.
    unfold normalize. by rewrite map_app. }
  unfold index_line. rewrite Htypes. simpl.
  rewrite fold_index_type_lookup by apply collectTypes_NoDup.
  rewrite decide_True
    by (by apply collectTypes_standalone_hash, normalize_no_double_hash).
  eexists. split; [done|].
  rewrite index_lines_lineNumber, index_lines_dictionary. unfold touched.
  destruct (expected_entry EmptyString lines) as [old|] eqn:Hold; simpl; [|done].
  by apply expected_entry_postings in Hold as (Hterm & _ & _).
Qed.

Lemma standalone_hash_entry_witness :
  ∃ item,
    dictionary (index_line (index_lines []) (tweet "t1" "how # works")) !! EmptyString
    = Some item
    ∧ term item = EmptyString
    ∧ head (postingsList item) = Some 0.
Proof.
  apply (standalone_hash_entry [] (tweet "t1" "how # works") "how # works"
           ["how"] ["works"]).
  - reflexivity.
  - reflexivity.
  - intros Hin. apply list_elem_of_singleton in Hin. discriminate Hin.
Defined.

(** The line [## #] has the standalone token [#], and no entry for the
    empty string comes of it: [##] has put [#] among the types before the
    token [#] is met, which is then dropped as a duplicate. *)
Lemma standalone_hash_after_double_hash :
  tokenize (preprocess "## #") = ["##"; "#"]
  ∧ collectTypes (normalize ["##"; "#"]) = ["##"; "#"]
  ∧ dictionary (index_lines [tweet "t1" "## #"]) !! EmptyString = None.
Proof. split_and!; reflexivity. Qed.

(** ** The sort of the list heads *)

Lemma sort_insert_by_size (x : list nat) (sorted : list (list nat)) :
  sort_insert by_size x sorted = x :: sorted.
Proof. by destruct sorted. Qed.

Lemma js_sort_by_size (arr : list (list nat)) :
  js_sort by_size arr
  = List.filter is_item arr ++ List.filter (λ p, negb (is_item p)) arr.
Proof.
  unfold js_sort. f_equal.
  induction (List.filter is_item arr) as [|x l IH]; simpl; [done|].
  by rewrite IH, sort_insert_by_size.
Qed.

(** C4 fails. The comparator reads [size] from the list heads, which do not
    have it, so every comparison yields [NaN] and the sort leaves the heads
    of the terms that have an entry in the order of the terms, followed by
    those of the terms that have none. The term [a] of frequency 2 stays
    before [b] of frequency 1. *)
Theorem sort_keeps_term_order (dictionary : gmap string DictionaryItem)
    (terms : list string) :
  sorted_items dictionary terms
  = List.filter is_item (List.map (postings_head dictionary) terms)
    ++ List.filter (λ p, negb (is_item p))
         (List.map (postings_head dictionary) terms)
  ∧ let '(dictionary, _) := index [tweet "t1" "a b"; tweet "t2" "a"] in
    (size <$> dictionary !! "a") = Some 2
    ∧ (size <$> dictionary !! "b") = Some 1
    ∧ sorted_items dictionary ["a"; "b"] = [[1; 0]; [0]].
Proof.
  split; [apply js_sort_by_size|]. split_and!; reflexivity.
Qed.

(** ** The merge of two postings lists *)

Lemma while_both_nil_l (itemB resultList : list nat) :
  while_both [] itemB resultList = resultList.
Proof. by destruct itemB. Qed.

Lemma while_both_nil_r (itemA resultList : list nat) :
  while_both itemA [] resultList = resultList.
Proof. by destruct itemA. Qed.

Lemma while_both_cons (a b : nat) (nextA nextB resultList : list nat) :
  while_both (a :: nextA) (b :: nextB) resultList
  = if a =? b then while_both nextA nextB (resultList ++ [a])
    else if b <? a then while_both nextA (b :: nextB) resultList
    else while_both (a :: nextA) nextB resultList.
Proof. reflexivity. Qed.

Lemma descending_inv (d : nat) (postings : list nat) :
  strictly_descending (d :: postings) →
  strictly_descending postings ∧ ∀ d', d' ∈ postings → d' < d.
Proof.
  unfold strictly_descending. intros H.
  apply StronglySorted_cons in H as [Hall Hs]. split; [done|].
  intros d' Hin. exact (proj1 (Forall_forall _ _) Hall d' Hin).
Qed.

Lemma keep_common_nil (itemA : list nat) : keep_common [] itemA = [].
Proof.
  unfold keep_common.
  induction itemA as [|a itemA IH]; cbn [List.filter]; [done|].
  rewrite bool_decide_eq_false_2; [done|]. apply not_elem_of_nil.
Qed.

Lemma keep_common_ext (B B' A : list nat) :
  (∀ d, d ∈ A → (d ∈ B ↔ d ∈ B')) → keep_common B A = keep_common B' A.
Proof.
  intros Hext. unfold keep_common. apply filter_ext_in. intros d Hd.
  apply list_elem_of_In, Hext in Hd. by apply bool_decide_ext.
Qed.

Lemma elem_of_keep_common (B A : list nat) (d : nat) :
  d ∈ keep_common B A ↔ d ∈ A ∧ d ∈ B.
Proof.
  unfold keep_common. rewrite list_elem_of_In, filter_In, bool_decide_eq_true.
  by rewrite <- list_elem_of_In.
Qed.

Lemma keep_common_descending (B A : list nat) :
  strictly_descending A → strictly_descending (keep_common B A).
Proof.
  unfold strictly_descending. induction 1 as [|a A Hs IH Hall]; [constructor|].
  unfold keep_common in *. cbn [List.filter].
  destruct (bool_decide (a ∈ B)); [|done].
  constructor; [done|]. apply Forall_forall. intros d Hd.
  apply (elem_of_keep_common B A d) in Hd as [Hd _].
  exact (proj1 (Forall_forall _ _) Hall d Hd).
Qed.

Lemma while_both_keep_common (itemA itemB resultList : list nat) :
  strictly_descending itemA → strictly_descending itemB →
  while_both itemA itemB resultList = resultList ++ keep_common itemB itemA.
Proof.
  revert itemB resultList.
  induction itemA as [|a A IHA]; intros B acc HA HB.
  { rewrite while_both_nil_l. by rewrite app_nil_r. }
  apply descending_inv in HA as [HA Hlow].
  induction B as [|b B IHB].
  { by rewrite while_both_nil_r, keep_common_nil, app_nil_r. }
  pose proof HB as HB'. apply descending_inv in HB' as [HBs HBlow].
  rewrite while_both_cons.
  destruct (a =? b) eqn:Hab; [|destruct (b <? a) eqn:Hba].
  - apply Nat.eqb_eq in Hab. subst b.
    rewrite IHA by done. rewrite <- app_assoc. f_equal.
    unfold keep_common at 2. cbn [List.filter].
    rewrite bool_decide_eq_true_2 by (apply elem_of_cons; by left).
    cbn [app]. f_equal. apply keep_common_ext. intros d Hd.
    rewrite elem_of_cons. specialize (Hlow d Hd). split; [by right|].
    intros [->|?]; [lia|done].
  - apply Nat.ltb_lt in Hba. rewrite IHA by done. f_equal.
    unfold keep_common at 2. cbn [List.filter].
    rewrite bool_decide_eq_false_2; [done|].
    intros Hin. apply elem_of_cons in Hin as [->|Hin]; [lia|].
    specialize (HBlow a Hin). lia.
  - apply Nat.eqb_neq in Hab. apply Nat.ltb_ge in Hba.
    rewrite IHB by done. f_equal. apply keep_common_ext. intros d Hd.
    rewrite elem_of_cons. split; [by right|].
    intros [->|?]; [|done].
    apply elem_of_cons in Hd as [->|Hd]; [lia|]. specialize (Hlow b Hd). lia.
Qed.

Lemma intersect_all_nil (others : list (list nat)) : intersect_all [] others = [].
Proof. induction others as [|B others IH]; [done|]. simpl. apply IH. Qed.

Lemma do_while_intersect (allItems : list (list nat)) (itemA itemB : list nat) :
  strictly_descending itemA → strictly_descending itemB →
  Forall (λ p, is_item p = true ∧ strictly_descending p) allItems →
  do_while itemA itemB allItems [] = intersect_all itemA (itemB :: allItems).
Proof.
  revert itemA itemB.
  induction allItems as [|C rest IH]; intros A B HA HB Hall; simpl;
    rewrite while_both_keep_common by done; simpl; [done|].
  apply Forall_cons in Hall as [[HC HCs] Hall]. rewrite HC.
  destruct (keep_common B A) as [|d r] eqn:Hr; simpl.
  { by rewrite intersect_all_nil. }
  rewrite orb_true_r. rewrite IH; [done| |done|done].
  rewrite <- Hr. by apply keep_common_descending.
Qed.

Lemma elem_of_intersect_all (others : list (list nat)) (itemA : list nat) (d : nat) :
  d ∈ intersect_all itemA others ↔ d ∈ itemA ∧ ∀ p, p ∈ others → d ∈ p.
Proof.
  revert itemA. induction others as [|B others IH]; intros A; simpl.
  - split; [|by intros [? _]]. intros Hd. split; [done|].
    intros p Hp. by apply elem_of_nil in Hp.
  - rewrite IH, elem_of_keep_common. split.
    + intros [[HA HB] Hall]. split; [done|]. intros p Hp.
      apply elem_of_cons in Hp as [->|Hp]; [done|by apply Hall].
    + intros [HA Hall]. split; [split; [done|]|].
      * apply Hall, elem_of_cons. by left.
      * intros p Hp. apply Hall, elem_of_cons. by right.
Qed.

Lemma intersect_all_descending (others : list (list nat)) (itemA : list nat) :
  strictly_descending itemA → strictly_descending (intersect_all itemA others).
Proof.
  revert itemA. induction others as [|B others IH]; intros A HA; simpl; [done|].
  by apply IH, keep_common_descending.
Qed.

(** ** Where the query of several terms is an intersection *)

Lemma filter_all_items (heads : list (list nat)) :
  Forall (λ p, is_item p = true) heads →
  List.filter is_item heads = heads
  ∧ List.filter (λ p, negb (is_item p)) heads = [].
Proof.
  induction 1 as [|p heads Hp Hall [IH1 IH2]]; [done|].
  simpl. by rewrite Hp, IH1, IH2.
Qed.

Lemma index_head_ok (lines : list string) (term0 : string) :
  is_Some (dictionary (index_lines lines) !! term0) →
  is_item (postings_head (dictionary (index_lines lines)) term0) = true
  ∧ strictly_descending (postings_head (dictionary (index_lines lines)) term0).
Proof.
  intros [item Hitem]. unfold postings_head. rewrite Hitem.
  rewrite index_lines_dictionary in Hitem.
  apply expected_entry_ok in Hitem as ((Hne & Hdesc & _) & _).
  split; [|done]. by destruct (postingsList item).
Qed.

(** X20. When every term has an entry in the index of a file, the query
    of two or more terms finds the line numbers that the queries of the
    single terms all find, in strictly descending order. *)
Lemma query_lines_all_present (lines : list string) (a b : string)
    (rest : list string) :
  (∀ t, t ∈ a :: b :: rest → is_Some (dictionary (index_lines lines) !! t)) →
  strictly_descending (query_lines (dictionary (index_lines lines)) (a :: b :: rest))
  ∧ ∀ number,
      number ∈ query_lines (dictionary (index_lines lines)) (a :: b :: rest)
      ↔ ∀ t, t ∈ a :: b :: rest →
             number ∈ query_lines (dictionary (index_lines lines)) [t].
Proof.
  intros Hpresent. set (d := dictionary (index_lines lines)).
  assert (Hheads : Forall (λ p, is_item p = true ∧ strictly_descending p)
                     (List.map (postings_head d) (a :: b :: rest))).
  { apply Forall_forall. intros p Hp.
    apply list_elem_of_In, in_map_iff in Hp as (t & <- & Ht).
    apply index_head_ok, Hpresent. by apply list_elem_of_In. }
  assert (Hq : query_lines d (a :: b :: rest)
               = intersect_all (postings_head d a)
                   (List.map (postings_head d) (b :: rest))).
  { unfold query_lines, sorted_items. rewrite js_sort_by_size.
    destruct (filter_all_items (List.map (postings_head d) (a :: b :: rest)))
      as [-> ->].
    { eapply Forall_impl; [exact Hheads|]. by intros p [? _]. }
    rewrite app_nil_r. cbn [List.map shift]. rewrite to_array_app. cbn [app].
    cbn [List.map] in Hheads.
    apply Forall_cons in Hheads as [[_ HA] Hheads].
    apply Forall_cons in Hheads as [[_ HB] Hheads].
    by rewrite do_while_intersect. }
  rewrite Hq. cbn [List.map] in Hheads.
  apply Forall_cons in Hheads as [[_ HA] _]. split.
  { by apply intersect_all_descending. }
  intros number. rewrite elem_of_intersect_all. unfold query_lines.
  setoid_rewrite to_array_app. cbn [app]. split.
  - intros [Ha Hall] t Ht. apply elem_of_cons in Ht as [->|Ht]; [done|].
    apply Hall. apply list_elem_of_In, in_map, list_elem_of_In. exact Ht.
  - intros Hall. split.
    + apply Hall, elem_of_cons. by left.
    + intros p Hp. apply list_elem_of_In, in_map_iff in Hp as (t & <- & Ht).
      apply Hall, elem_of_cons. right. by apply list_elem_of_In.
Qed.

(** With two terms, a term without entry empties the result. *)
Lemma query_lines_two_absent (dictionary : gmap string DictionaryItem)
    (a b : string) :
  dictionary !! a = None ∨ dictionary !! b = None →
  query_lines dictionary [a; b] = [].
Proof.
  intros Habs. unfold query_lines, sorted_items. rewrite js_sort_by_size.
  cbn [List.map List.filter].
  destruct (postings_head dictionary a) as [|da A] eqn:Ha;
    destruct (postings_head dictionary b) as [|db B] eqn:Hb; try done.
  exfalso. unfold postings_head in Ha, Hb.
  destruct Habs as [Hnone|Hnone]; rewrite Hnone in *; done.
Qed.

(** A third term without entry, after two terms that have one, is left out
    of the intersection. *)
Lemma query_lines_absent_third (dictionary : gmap string DictionaryItem)
    (a b c : string) :
  is_item (postings_head dictionary a) = true →
  is_item (postings_head dictionary b) = true →
  dictionary !! c = None →
  query_lines dictionary [a; b; c] = query_lines dictionary [a; b].
Proof.
  intros Ha Hb Hc. unfold query_lines, sorted_items. rewrite !js_sort_by_size.
  assert (Hhead : postings_head dictionary c = []).
  { unfold postings_head. by rewrite Hc. }
  cbn [List.map List.filter]. rewrite Ha, Hb, Hhead. cbn [is_item negb app shift].
  cbn [do_while]. by rewrite andb_false_r.
Qed.

(** ** Queries of several terms *)

(** C1 fails on three terms. With [a] and [b] on the one line of the file
    and [zzz] on none, the query of [a], [b] and [zzz] returns that line;
    the query of [a] and [zzz] is empty. *)
Theorem absent_third_term_ignored :
  let '(dictionary, idsMap) := index [tweet "t1" "a b"] in
  dictionary !! "zzz" = None
  ∧ query dictionary idsMap ["a"; "b"; "zzz"] = [Some "t1"]
  ∧ query dictionary idsMap ["zzz"; "a"; "b"] = [Some "t1"]
  ∧ query dictionary idsMap ["a"; "zzz"] = [].
Proof. split_and!; reflexivity. Qed.

(** C2 fails on three terms. On the two lines of the scenario of the
    specification, the query of [side], [effects] and [covid] returns both
    lines, while the query of [covid] alone returns none, so that the
    intersection of the three single results is empty. *)
Theorem intersection_misses_absent_term :
  let '(dictionary, idsMap) :=
    index [tweet "t1" "side effects of the vaccine";
           tweet "t2" "side effects of malaria vaccine"] in
  query dictionary idsMap ["side"] = [Some "t2"; Some "t1"]
  ∧ query dictionary idsMap ["effects"] = [Some "t2"; Some "t1"]
  ∧ query dictionary idsMap ["covid"] = []
  ∧ query dictionary idsMap ["side"; "effects"; "covid"] = [Some "t2"; Some "t1"]
  ∧ query dictionary idsMap ["malaria"; "vaccine"] = [Some "t2"].
Proof. split_and!; reflexivity. Qed.

(** * Further properties of the code *)

(** ** The alphabet of the normalizer *)

Lemma all_chars_impl (test test' : ascii → bool) (s : string) :
  (∀ c, test c = true → test' c = true) →
  all_chars test s = true → all_chars test' s = true.
Proof.
  intros Himpl. induction s as [|c rest IH]; simpl; [done|].
  intros [Hc Hrest]%andb_true_iff. by rewrite (Himpl c Hc), IH.
Qed.

Lemma preprocess_from_clean (skip : nat) (text : string) :
  all_chars is_clean (preprocess_from skip text) = true.
Proof.
  revert skip. induction text as [|c rest IH]; intros skip; [done|].
  cbn [preprocess_from]. destruct skip as [|k]; [|apply IH].
  destruct (String.prefix "[NEWLINE]" (String c rest)).
  { cbn [all_chars]. by rewrite IH. }
  destruct (String.prefix "[TAB]" (String c rest)).
  { cbn [all_chars]. by rewrite IH. }
  destruct (is_unnecessary c) eqn:Hc; cbn [all_chars]; rewrite IH.
  - done.
  - unfold is_clean. by rewrite Hc.
Qed.

Lemma preprocess_from_length (skip : nat) (text : string) :
  String.length (preprocess_from skip text) ≤ String.length text.
Proof.
  revert skip. induction text as [|c rest IH]; intros skip; [done|].
  cbn [preprocess_from]. destruct skip as [|k].
  - destruct (String.prefix "[NEWLINE]" (String c rest));
      [simpl; specialize (IH 8); lia|].
    destruct (String.prefix "[TAB]" (String c rest));
      [simpl; specialize (IH 4); lia|].
    destruct (is_unnecessary c); simpl; specialize (IH 0); lia.
  - simpl. specialize (IH k). lia.
Qed.

Lemma clean_not_bracket (c : ascii) : is_clean c = true → c ≠ "["%char.
Proof. intros Hc ->. discriminate Hc. Qed.

Lemma clean_unnecessary_space (c : ascii) :
  is_clean c = true → is_unnecessary c = true → c = " "%char.
Proof.
  unfold is_clean. intros Hc Hu. rewrite Hu in Hc. simpl in Hc.
  by apply Ascii.eqb_eq in Hc.
Qed.

Lemma preprocess_clean_id (text : string) :
  all_chars is_clean text = true → preprocess text = text.
Proof.
  induction text as [|c rest IH]; [done|].
  cbn [all_chars]. intros [Hc Hrest]%andb_true_iff.
  rewrite preprocess_char by (by apply clean_not_bracket).
  rewrite IH by done.
  destruct (is_unnecessary c) eqn:Hu; [|done].
  by rewrite (clean_unnecessary_space c Hc Hu).
Qed.

(** X1. Whatever the text, [preprocess] returns a string of digits,
    letters, underscores, [#] and spaces only, which is not longer than
    the text and is empty only if the text is. *)
Theorem preprocess_output (text : string) :
  all_chars is_clean (preprocess text) = true
  ∧ String.length (preprocess text) ≤ String.length text
  ∧ JS.truthy (preprocess text) = JS.truthy text.
Proof.
  split_and!.
  - apply preprocess_from_clean.
  - apply preprocess_from_length.
  - destruct text as [|c rest]; [done|].
    destruct (preprocess (String c rest)) eqn:Hpre; [|done].
    by apply preprocess_empty in Hpre.
Qed.

(** X2. [preprocess] is idempotent: a text that went through it once
    comes back unchanged from a second pass. *)
Theorem preprocess_idempotent (text : string) :
  preprocess (preprocess text) = preprocess text.
Proof. apply preprocess_clean_id, preprocess_from_clean. Qed.

(** ** Tokenize *)

Lemma split_not_nil (sep : ascii) (s : string) : JS.split sep s ≠ [].
Proof.
  induction s as [|c rest IH]; simpl; [done|].
  destruct (Ascii.eqb c sep); [done|]. by destruct (JS.split sep rest).
Qed.

Lemma split_app (sep : ascii) (a b : string) :
  JS.split sep (String.append a (String sep b))
  = JS.split sep a ++ JS.split sep b.
Proof.
  induction a as [|c a IH]; simpl.
  - by rewrite Ascii.eqb_refl.
  - destruct (Ascii.eqb c sep); [by rewrite IH|].
    rewrite IH. pose proof (split_not_nil sep a) as Hne.
    by destruct (JS.split sep a).
Qed.

Lemma split_chars (test : ascii → bool) (sep : ascii) (s : string) :
  all_chars test s = true →
  Forall (λ part, all_chars (λ c, test c && negb (Ascii.eqb c sep)) part = true)
    (JS.split sep s).
Proof.
  induction s as [|c rest IH]; simpl.
  { intros _. by repeat constructor. }
  intros [Hc Hrest]%andb_true_iff. specialize (IH Hrest).
  destruct (Ascii.eqb c sep) eqn:Hsep.
  - by constructor.
  - pose proof (split_not_nil sep rest) as Hne.
    destruct (JS.split sep rest) as [|hd tl]; [done|].
    apply Forall_cons in IH as [Hhd Htl]. constructor; [|done].
    cbn [all_chars]. by rewrite Hc, Hsep, Hhd.
Qed.

Lemma Forall_list_filter {A} (P : A → Prop) (f : A → bool) (l : list A) :
  Forall P l → Forall (λ x, f x = true ∧ P x) (List.filter f l).
Proof.
  induction 1 as [|x l Hx Hl IH]; simpl; [constructor|].
  destruct (f x) eqn:Hf; [by constructor|done].
Qed.

(** X3. No token of [tokenize] is empty and none has a space in it. A
    space between two texts separates their tokens: the tokens of the
    whole are those of the first text followed by those of the second. *)
Theorem tokenize_tokens (text more : string) :
  Forall (λ token, JS.truthy token = true
                   ∧ all_chars (λ c, negb (Ascii.eqb c " ")) token = true)
    (tokenize text)
  ∧ tokenize (String.append text (String " " more))
    = tokenize text ++ tokenize more.
Proof.
  split.
  - unfold tokenize. apply Forall_list_filter.
    eapply Forall_impl.
    + apply (split_chars (λ _, true) " " text).
      clear. induction text as [|c rest IH]; [done|]. simpl. exact IH.
    + by intros part.
  - unfold tokenize. by rewrite split_app, List.filter_app.
Qed.

(** The tokens of a preprocessed text are made of digits, letters,
    underscores and [#] only. *)
Lemma tokenize_preprocess_chars (text : string) :
  Forall (λ token, all_chars (λ c, negb (is_unnecessary c)) token = true)
    (tokenize (preprocess text)).
Proof.
  unfold tokenize.
  pose proof (split_chars is_clean " " (preprocess text)
                (preprocess_from_clean 0 text)) as Hparts.
  apply (Forall_list_filter _ JS.truthy) in Hparts.
  eapply Forall_impl; [exact Hparts|]. intros token [_ Hchars].
  revert Hchars. apply all_chars_impl. intros c.
  unfold is_clean. destruct (Ascii.eqb c " ").
  - by rewrite andb_false_r.
  - rewrite orb_false_r, andb_true_r. done.
Qed.

(** ** Normalize *)

Lemma lower_char_idempotent (c : ascii) :
  JS.lower_char (JS.lower_char c) = JS.lower_char c.
Proof. destruct c as [[] [] [] [] [] [] [] []]; reflexivity. Qed.

Lemma lower_char_key (c : ascii) :
  is_unnecessary c = false → is_key_char (JS.lower_char c) = true.
Proof. destruct c as [[] [] [] [] [] [] [] []]; vm_compute; congruence. Qed.

Lemma toLowerCase_idempotent (s : string) :
  JS.toLowerCase (JS.toLowerCase s) = JS.toLowerCase s.
Proof.
  induction s as [|c rest IH]; simpl; [done|].
  by rewrite lower_char_idempotent, IH.
Qed.

Lemma toLowerCase_length (s : string) :
  String.length (JS.toLowerCase s) = String.length s.
Proof. induction s as [|c rest IH]; simpl; [done|]. by rewrite IH. Qed.

(** ** Collect Types, again *)

Lemma fold_new_types (types : list string) (token : string) :
  fold_left collectTypes_step (new_types types token) types
  = types ++ new_types types token.
Proof.
  unfold new_types.
  destruct (JS.includes types token) eqn:Htok; [by rewrite app_nil_r|].
  destruct (JS.startsWith_hash token) eqn:Hh; cbn [andb].
  - destruct (JS.includes types (JS.replace_hash token)) eqn:Hstr; cbn [negb fold_left].
    + unfold collectTypes_step. by rewrite Htok, Hh, Hstr.
    + unfold collectTypes_step at 2. rewrite Htok, Hh, Hstr.
      unfold collectTypes_step.
      replace (JS.includes (types ++ [token; JS.replace_hash token])
                 (JS.replace_hash token)) with true; [done|].
      symmetry. apply includes_true, elem_of_app. right.
      apply elem_of_cons. right. apply elem_of_cons. by left.
  - cbn [fold_left]. unfold collectTypes_step. by rewrite Htok, Hh.
Qed.

Lemma new_types_length (types : list string) (token : string) :
  length (new_types types token) ≤ 2.
Proof.
  unfold new_types. destruct (JS.includes types token); [simpl; lia|].
  destruct (_ && _); simpl; lia.
Qed.

(** X5. Collect Types is idempotent: the types of a list of types are
    that list. It returns at most two types for every token. *)
Theorem collectTypes_idempotent (tokens : list string) :
  collectTypes (collectTypes tokens) = collectTypes tokens
  ∧ length (collectTypes tokens) ≤ 2 * length tokens.
Proof.
  induction tokens as [|token pre [IH IHlen]] using rev_ind; [done|].
  rewrite collectTypes_snoc. split.
  - rewrite collectTypes_app, IH. apply fold_new_types.
  - rewrite !length_app. cbn [length].
    pose proof (new_types_length (collectTypes pre) token). lia.
Qed.

(** ** The terms of the dictionary *)

Lemma toLowerCase_key_chars (token : string) :
  all_chars (λ c, negb (is_unnecessary c)) token = true →
  all_chars is_key_char (JS.toLowerCase token) = true.
Proof.
  induction token as [|c rest IH]; [done|]. cbn [all_chars JS.toLowerCase].
  intros [Hc Hrest]%andb_true_iff. apply negb_true_iff in Hc.
  by rewrite (lower_char_key c Hc), IH.
Qed.

Lemma replace_hash_chars (test : ascii → bool) (token : string) :
  all_chars test token = true → all_chars test (JS.replace_hash token) = true.
Proof.
  induction token as [|c rest IH]; [done|]. cbn [all_chars JS.replace_hash].
  intros [Hc Hrest]%andb_true_iff.
  destruct (Ascii.eqb c "#"); [done|]. cbn [all_chars]. by rewrite Hc, IH.
Qed.

Lemma toLowerCase_keyed (token : string) :
  all_chars is_key_char token = true → JS.toLowerCase token = token.
Proof.
  induction token as [|c rest IH]; [done|]. cbn [all_chars JS.toLowerCase].
  intros [Hc Hrest]%andb_true_iff. rewrite IH by done. f_equal.
  revert Hc. clear. destruct c as [[] [] [] [] [] [] [] []]; vm_compute; congruence.
Qed.

Lemma normalize_keyed (tokens : list string) :
  Forall (λ token, all_chars is_key_char token = true) tokens →
  normalize tokens = tokens.
Proof.
  unfold normalize. induction 1 as [|token rest Htoken Hrest IH]; [done|].
  cbn [List.map]. by rewrite IH, toLowerCase_keyed.
Qed.

(** X4. On tokens made of digits, letters of [A-Z] and [a-z], underscores
    and [#] only, which are the tokens that [tokenize] makes of a
    preprocessed text, [normalize] keeps the number of tokens and the
    length of every token, leaves digits, small letters, underscores and
    [#] only, and is idempotent. *)
Theorem normalize_word_tokens (tokens : list string) :
  Forall (λ token, all_chars (λ c, negb (is_unnecessary c)) token = true) tokens →
  normalize (normalize tokens) = normalize tokens
  ∧ length (normalize tokens) = length tokens
  ∧ List.map String.length (normalize tokens) = List.map String.length tokens
  ∧ Forall (λ token, all_chars is_key_char token = true) (normalize tokens).
Proof.
  intros Hword.
  assert (Hkey : Forall (λ token, all_chars is_key_char token = true)
                   (normalize tokens)).
  { unfold normalize. induction Hword as [|token rest Htoken Hrest IH];
      [constructor|].
    cbn [List.map]. constructor; [by apply toLowerCase_key_chars|done]. }
  split_and!; [| | |done].
  - by apply normalize_keyed.
  - unfold normalize. apply length_map.
  - unfold normalize. rewrite List.map_map. apply List.map_ext. intros token.
    apply toLowerCase_length.
Qed.

Lemma normalize_word_tokens_witness :
  normalize (normalize ["Side"; "#COVID"; "a_b"]) = normalize ["Side"; "#COVID"; "a_b"].
Proof.
  apply (normalize_word_tokens ["Side"; "#COVID"; "a_b"]).
  repeat constructor.
Defined.

Lemma line_types_key_chars (line : string) (types : list string) :
  line_types line = Some types →
  Forall (λ type, all_chars is_key_char type = true) types.
Proof.
  unfold line_types. destruct (line_tweetText line) as [text|]; [|done].
  destruct (negb (JS.truthy text)); [done|].
  destruct (negb (JS.truthy (preprocess text))); [done|].
  intros [= <-].
  assert (Htokens : Forall (λ token, all_chars is_key_char token = true)
                      (normalize (tokenize (preprocess text)))).
  { unfold normalize. apply Forall_forall. intros token Hin.
    apply list_elem_of_In, in_map_iff in Hin as (raw & <- & Hraw).
    apply toLowerCase_key_chars.
    pose proof (tokenize_preprocess_chars text) as Hall.
    rewrite Forall_forall in Hall. apply Hall. by apply list_elem_of_In. }
  rewrite Forall_forall in Htokens.
  eapply Forall_impl; [apply collectTypes_origin|].
  intros type [Hin|(token & Hin & _ & ->)].
  - by apply Htokens.
  - by apply replace_hash_chars, Htokens.
Qed.

Lemma entry_has_line (lines : list string) (type : string) :
  is_Some (dictionary (index_lines lines) !! type) →
  ∃ number line, lines !! number = Some line ∧ has_type type line = true.
Proof.
  intros [item Hitem].
  pose proof Hitem as Hexp. rewrite index_lines_dictionary in Hexp.
  apply expected_entry_ok in Hexp as ((Hne & _ & _) & _).
  destruct (postingsList item) as [|number rest] eqn:Hpost; [done|].
  exists number.
  apply (postings_have_type lines type item number Hitem).
  rewrite Hpost. apply elem_of_cons. by left.
Qed.

(** X6. Every term of the dictionary of a file is made of digits, small
    letters, underscores and [#] only. So a term with any other character
    in it, a capital letter for one, has no entry, and the query of it
    comes back empty. *)
Theorem dictionary_terms_normalized (lines : list string) (term0 : string) :
  all_chars is_key_char term0 = false →
  let '(dictionary, idsMap) := index lines in
  dictionary !! term0 = None ∧ query dictionary idsMap [term0] = [].
Proof.
  intros Hbad. unfold index.
  assert (Hnone : dictionary (index_lines lines) !! term0 = None).
  { destruct (dictionary (index_lines lines) !! term0) as [item|] eqn:Hitem;
      [|done].
    destruct (entry_has_line lines term0) as (number & line & _ & Hty).
    { by rewrite Hitem. }
    unfold has_type in Hty.
    destruct (line_types line) as [types|] eqn:Htypes; [|done].
    apply includes_true in Hty.
    pose proof (line_types_key_chars _ _ Htypes) as Hall.
    rewrite Forall_forall in Hall. specialize (Hall term0 Hty). congruence. }
  split; [done|].
  unfold query, query_lines, postings_head. by rewrite Hnone.
Qed.

Lemma dictionary_terms_normalized_witness :
  let '(dictionary, idsMap) := index [tweet "t1" "Vaccine now"] in
  dictionary !! "Vaccine" = None ∧ query dictionary idsMap ["Vaccine"] = [].
Proof.
  apply (dictionary_terms_normalized [tweet "t1" "Vaccine now"] "Vaccine").
  reflexivity.
Defined.

(** ** The index of a file, entry by entry *)

Lemma lines_with_elem (type : string) (lines : list string) (first k : nat)
    (line : string) :
  lines !! k = Some line → has_type type line = true →
  first + k ∈ lines_with type lines first.
Proof.
  revert first k. induction lines as [|l lines IH]; intros first k; [done|].
  destruct k as [|k]; simpl.
  - intros [= ->] Hty. rewrite Hty, Nat.add_0_r.
    apply elem_of_app. left. apply elem_of_cons. by left.
  - intros Hget Hty. apply elem_of_app. right.
    replace (first + S k) with (S first + k) by lia. by apply IH.
Qed.

Lemma postings_head_lines (lines : list string) (type : string) :
  postings_head (dictionary (index_lines lines)) type
  = reverse (lines_with type lines 0).
Proof.
  unfold postings_head. rewrite index_lines_dictionary. unfold expected_entry.
  by destruct (lines_with type lines 0).
Qed.

(** X7. In the index of a file, the entry of a type carries the type as
    its term and the length of its postings list as its size; a type has
    an entry exactly if some indexed line has it. *)
Theorem index_entry_fields (lines : list string) (type : string) :
  match dictionary (index_lines lines) !! type with
  | Some item =>
      term item = type
      ∧ size item = length (postingsList item)
      ∧ 0 < size item
      ∧ ∃ number line, lines !! number = Some line
                       ∧ has_type type line = true
  | None => Forall (λ line, has_type type line = false) lines
  end.
Proof.
  destruct (dictionary (index_lines lines) !! type) as [item|] eqn:Hitem.
  - pose proof Hitem as Hexp. rewrite index_lines_dictionary in Hexp.
    pose proof (expected_entry_postings _ _ _ Hexp) as (Hterm & Hsize & _).
    apply expected_entry_ok in Hexp as ((Hne & _ & _) & _).
    split_and!; [done|done| |].
    + rewrite Hsize. destruct (postingsList item); [done|simpl; lia].
    + apply entry_has_line. by rewrite Hitem.
  - apply Forall_forall. intros line Hin.
    destruct (has_type type line) eqn:Hty; [|done].
    apply list_elem_of_lookup in Hin as [k Hk].
    pose proof (lines_with_elem type lines 0 k line Hk Hty) as Helem.
    rewrite index_lines_dictionary in Hitem. unfold expected_entry in Hitem.
    destruct (lines_with type lines 0); [|done]. by apply elem_of_nil in Helem.
Qed.

(** X8. The postings list of a type holds the number of a line exactly
    if that line was indexed with the type among its types: no line is
    missing from the list and none is there without cause. *)
Theorem postings_sound_complete (lines : list string) (type : string)
    (number : nat) :
  number ∈ postings_head (dictionary (index_lines lines)) type
  ↔ ∃ line types, lines !! number = Some line
                  ∧ line_types line = Some types ∧ type ∈ types.
Proof.
  rewrite postings_head_lines, elem_of_reverse. split.
  - intros Hin. apply lines_with_lookup in Hin as (_ & line & Hget & Hty).
    rewrite Nat.sub_0_r in Hget. unfold has_type in Hty.
    destruct (line_types line) as [types|] eqn:Htypes; [|done].
    exists line, types. split_and!; [done|done|by apply includes_true].
  - intros (line & types & Hget & Htypes & Hin).
    apply (lines_with_elem type lines 0 number line Hget).
    unfold has_type. rewrite Htypes. by apply includes_true.
Qed.

Lemma array_set_length (arr : list (option string)) (i : nat) (v : string) :
  length arr ≤ i → length (JS.array_set arr i v) = S i.
Proof.
  intros Hle. unfold JS.array_set.
  rewrite (proj2 (Nat.ltb_ge i (length arr)) Hle).
  rewrite !length_app, length_replicate. simpl. lia.
Qed.

Lemma index_lines_ids_length (lines : list string) :
  length (ids (index_lines lines)) ≤ length lines.
Proof.
  induction lines as [|line lines IH] using rev_ind; [done|].
  rewrite index_lines_snoc, length_app. unfold index_line.
  destruct (line_types line); simpl; [|lia].
  rewrite array_set_length; rewrite index_lines_lineNumber; lia.
Qed.

Lemma line_types_text (line : string) :
  line_types line
  = match line_tweetText line with
    | Some (String c rest) =>
        Some (collectTypes (normalize (tokenize (preprocess (String c rest)))))
    | _ => None
    end.
Proof.
  unfold line_types. destruct (line_tweetText line) as [[|c rest]|]; [done| |done].
  cbn [JS.truthy negb].
  destruct (preprocess (String c rest)) eqn:Hpre; [|done].
  by apply preprocess_empty in Hpre.
Qed.

(** X9. After any lines, the line counter is the number of lines read and
    the table of ids is no longer than that. The table holds the id of a
    line at the number of the line exactly if the line has a fourth field
    that is not empty; everywhere else it reads as [undefined]. *)
Theorem ids_table (lines : list string) (number : nat) :
  lineNumber (index_lines lines) = length lines
  ∧ length (ids (index_lines lines)) ≤ length lines
  ∧ JS.array_get (ids (index_lines lines)) number
    = match lines !! number with
      | Some line =>
          match line_tweetText line with
          | Some (String _ _) => Some (line_id line)
          | _ => None
          end
      | None => None
      end.
Proof.
  split_and!.
  - apply index_lines_lineNumber.
  - apply index_lines_ids_length.
  - rewrite index_lines_ids. unfold expected_id.
    destruct (lines !! number) as [line|]; [|done].
    rewrite line_types_text. by destruct (line_tweetText line) as [[|c rest]|].
Qed.

(** X10. Reading more lines never takes anything away: a type that has
    an entry keeps it, with the same term, its old postings list as the
    tail end of the new one, and a size that has not gone down. *)
Theorem index_grows (lines more : list string) (type : string)
    (item : DictionaryItem) :
  dictionary (index_lines lines) !! type = Some item →
  ∃ item', dictionary (index_lines (lines ++ more)) !! type = Some item'
           ∧ term item' = term item
           ∧ postingsList item `suffix_of` postingsList item'
           ∧ size item ≤ size item'.
Proof.
  rewrite !index_lines_dictionary. intros Hitem.
  pose proof (expected_entry_postings _ _ _ Hitem) as (Hterm & Hsize & Hpost).
  unfold expected_entry in *. rewrite lines_with_app.
  destruct (lines_with type lines 0) as [|d l] eqn:Hold; [done|].
  cbn [app]. eexists. split; [done|]. cbn [term postingsList size].
  split_and!.
  - done.
  - rewrite Hpost.
    change (d :: l ++ lines_with type more (0 + length lines))
      with ((d :: l) ++ lines_with type more (0 + length lines)).
    rewrite reverse_app. by apply suffix_app_r.
  - rewrite Hsize, Hpost, length_reverse. cbn [length].
    rewrite length_app. lia.
Qed.

Lemma index_grows_witness :
  ∃ item', dictionary (index_lines ([tweet "t1" "a b"] ++ [tweet "t2" "a"])) !! "a"
           = Some item'
           ∧ term item' = "a"
           ∧ [0] `suffix_of` postingsList item'
           ∧ 1 ≤ size item'.
Proof.
  apply (index_grows [tweet "t1" "a b"] [tweet "t2" "a"] "a"
           {| term := "a"; size := 1; postingsList := [0] |}).
  reflexivity.
Defined.

(** ** A line without any term *)

Lemma marker_needs_letter (text : string) :
  all_chars is_unnecessary text = true →
  String.prefix "[NEWLINE]" text = false ∧ String.prefix "[TAB]" text = false.
Proof.
  destruct text as [|c [|c2 rest]]; [done| |].
  - intros _. cbn [String.prefix]. by destruct (ascii_dec "[" c).
  - cbn [all_chars String.prefix].
    intros [_ [Hc2 _]%andb_true_iff]%andb_true_iff.
    destruct (ascii_dec "[" c); [|done].
    split.
    + destruct (ascii_dec "N" c2) as [<-|]; [discriminate Hc2|done].
    + destruct (ascii_dec "T" c2) as [<-|]; [discriminate Hc2|done].
Qed.

Lemma preprocess_unnecessary (text : string) :
  all_chars is_unnecessary text = true →
  all_chars (Ascii.eqb " ") (preprocess text) = true.
Proof.
  unfold preprocess. induction text as [|c rest IH]; [done|].
  intros Hall. destruct (marker_needs_letter _ Hall) as [Hn Ht].
  cbn [preprocess_from]. rewrite Hn, Ht.
  cbn [all_chars] in Hall. apply andb_true_iff in Hall as [Hc Hrest].
  rewrite Hc. cbn [all_chars]. by rewrite IH.
Qed.

Lemma tokenize_spaces (text : string) :
  all_chars (Ascii.eqb " ") text = true → tokenize text = [].
Proof.
  unfold tokenize. induction text as [|c rest IH]; [done|].
  cbn [all_chars]. intros [Hc Hrest]%andb_true_iff.
  apply Ascii.eqb_eq in Hc. subst c. cbn [JS.split]. rewrite Ascii.eqb_refl.
  cbn [List.filter JS.truthy]. by apply IH.
Qed.

(** X11. A line whose text is not empty and has no digit, letter,
    underscore or [#] in it is not skipped: its id goes into the table of
    ids at its number, and the dictionary stays as it is. *)
Theorem line_without_terms (st : IndexState) (line tweetText : string) :
  line_tweetText line = Some tweetText →
  JS.truthy tweetText = true →
  all_chars is_unnecessary tweetText = true →
  index_line st line
  = {| lineNumber := lineNumber st + 1;
       dictionary := dictionary st;
       ids := JS.array_set (ids st) (lineNumber st) (line_id line) |}.
Proof.
  intros Htext Htruthy Hall. unfold index_line.
  rewrite line_types_text, Htext.
  destruct tweetText as [|c rest]; [done|].
  by rewrite (tokenize_spaces _ (preprocess_unnecessary _ Hall)).
Qed.

Lemma line_without_terms_witness :
  index_line index_init (tweet "t1" "?!")
  = {| lineNumber := 1; dictionary := ∅; ids := [Some "t1"] |}.
Proof.
  apply (line_without_terms index_init (tweet "t1" "?!") "?!"); reflexivity.
Defined.

(** ** The query of several terms on the index of a file *)

Lemma do_while_nil_l (itemB : list nat) (allItems : list (list nat)) :
  do_while [] itemB allItems [] = [].
Proof.
  destruct allItems as [|C rest]; cbn [do_while];
    rewrite while_both_nil_l; done.
Qed.

Lemma do_while_nil_r (itemA : list nat) (allItems : list (list nat)) :
  do_while itemA [] allItems [] = [].
Proof.
  destruct allItems as [|C rest]; cbn [do_while];
    rewrite while_both_nil_r; done.
Qed.

Lemma do_while_intersect_absent (present absent : list (list nat))
    (itemA itemB : list nat) :
  strictly_descending itemA → strictly_descending itemB →
  Forall (λ p, is_item p = true ∧ strictly_descending p) present →
  Forall (λ p, is_item p = false) absent →
  do_while itemA itemB (present ++ absent) []
  = intersect_all itemA (itemB :: present).
Proof.
  intros HA HB Hpresent Habsent. revert itemA itemB HA HB.
  induction Hpresent as [|C rest [HC HCs] Hrest IH]; intros A B HA HB.
  - cbn [app intersect_all fold_left].
    destruct Habsent as [|Z absent HZ Habsent]; cbn [do_while];
      rewrite while_both_keep_common by done; cbn [app]; [done|].
    by rewrite HZ, andb_false_r.
  - cbn [app do_while]. rewrite while_both_keep_common by done. cbn [app].
    rewrite HC. cbn [intersect_all fold_left].
    destruct (keep_common B A) as [|d r] eqn:Hr.
    { cbn [is_item andb]. symmetry. apply intersect_all_nil. }
    cbn [is_item andb]. rewrite orb_true_r.
    rewrite IH; [done| |done].
    rewrite <- Hr. by apply keep_common_descending.
Qed.

Lemma filter_absent (heads : list (list nat)) :
  Forall (λ p, is_item p = false) (List.filter (λ p, negb (is_item p)) heads).
Proof.
  apply Forall_forall. intros p Hp.
  apply list_elem_of_In, filter_In in Hp as [_ Hp]. by apply negb_true_iff.
Qed.

Lemma index_heads_present (lines : list string) (terms : list string) :
  Forall (λ p, is_item p = true ∧ strictly_descending p)
    (List.filter is_item
       (List.map (postings_head (dictionary (index_lines lines))) terms)).
Proof.
  apply Forall_forall. intros p Hp.
  apply list_elem_of_In, filter_In in Hp as [Hp Hitem]. split; [done|].
  apply in_map_iff in Hp as (t & <- & _).
  rewrite postings_head_lines. apply reverse_ascending, lines_with_ascending.
Qed.

Lemma query_lines_several (lines : list string) (terms : list string) :
  length terms ≠ 1 →
  query_lines (dictionary (index_lines lines)) terms
  = match List.filter is_item
            (List.map (postings_head (dictionary (index_lines lines))) terms) with
    | itemA :: itemB :: others => intersect_all itemA (itemB :: others)
    | _ => []
    end.
Proof.
  intros Hlen. set (d := dictionary (index_lines lines)).
  assert (Hq : query_lines d terms
               = let '(itemA, allItems) := shift (sorted_items d terms) in
                 let '(itemB, allItems) := shift allItems in
                 to_array (do_while itemA itemB allItems []) []).
  { destruct terms as [|t [|t' rest]]; [done|done|done]. }
  rewrite Hq. unfold sorted_items. rewrite js_sort_by_size.
  pose proof (index_heads_present lines terms) as Hpresent.
  pose proof (filter_absent (List.map (postings_head d) terms)) as Habsent.
  fold d in Hpresent.
  destruct (List.filter is_item (List.map (postings_head d) terms))
    as [|A [|B others]].
  - cbn [app].
    destruct Habsent as [|Z absent HZ Habsent]; cbn [shift].
    { done. }
    destruct Z; [|done].
    destruct absent; cbn [shift]; by rewrite do_while_nil_l.
  - cbn [app shift].
    destruct Habsent as [|Z absent HZ Habsent]; cbn [shift].
    { by rewrite do_while_nil_r. }
    destruct Z; [|done]. by rewrite do_while_nil_r.
  - cbn [app shift].
    apply Forall_cons in Hpresent as [[_ HA] Hpresent].
    apply Forall_cons in Hpresent as [[_ HB] Hpresent].
    rewrite to_array_app. cbn [app].
    by apply do_while_intersect_absent.
Qed.

Lemma query_lines_descending (lines : list string) (terms : list string) :
  strictly_descending (query_lines (dictionary (index_lines lines)) terms).
Proof.
  destruct (decide (length terms = 1)) as [Hone|Hne].
  - destruct terms as [|t [|t' rest]]; [done| |done].
    unfold query_lines. rewrite to_array_app. cbn [app].
    rewrite postings_head_lines. apply reverse_ascending, lines_with_ascending.
  - rewrite query_lines_several by done.
    pose proof (index_heads_present lines terms) as Hpresent.
    destruct (List.filter is_item _) as [|A [|B others]];
      [constructor|constructor|].
    apply Forall_cons in Hpresent as [[_ HA] _].
    by apply intersect_all_descending.
Qed.

Lemma query_lines_several_elem (lines : list string) (terms : list string)
    (number : nat) :
  length terms ≠ 1 →
  number ∈ query_lines (dictionary (index_lines lines)) terms
  ↔ 2 ≤ length (List.filter is_item
                  (List.map (postings_head (dictionary (index_lines lines))) terms))
    ∧ ∀ p, p ∈ List.filter is_item
                 (List.map (postings_head (dictionary (index_lines lines))) terms) →
           number ∈ p.
Proof.
  intros Hlen. rewrite query_lines_several by done.
  destruct (List.filter is_item _) as [|A [|B others]].
  - split; [intros H; by apply elem_of_nil in H|]. simpl. lia.
  - split; [intros H; by apply elem_of_nil in H|]. simpl. lia.
  - rewrite elem_of_intersect_all. split.
    + intros [HA Hall]. split; [simpl; lia|]. intros p Hp.
      apply elem_of_cons in Hp as [->|Hp]; [done|by apply Hall].
    + intros [_ Hall]. split.
      * apply Hall, elem_of_cons. by left.
      * intros p Hp. apply Hall, elem_of_cons. by right.
Qed.

(** X12. On the index of a file, a query of no term or of several terms
    returns the line numbers that are in the postings list of every term
    that has an entry, in strictly descending order, provided two terms at
    least have one; it returns nothing otherwise. A term without entry
    does not empty the result of the others. *)
Theorem query_lines_of_entries (lines : list string) (terms : list string) :
  length terms ≠ 1 →
  let d := dictionary (index_lines lines) in
  let present := List.filter is_item (List.map (postings_head d) terms) in
  strictly_descending (query_lines d terms)
  ∧ ∀ number,
      number ∈ query_lines d terms
      ↔ 2 ≤ length present ∧ ∀ p, p ∈ present → number ∈ p.
Proof.
  intros Hlen d present. split.
  - apply query_lines_descending.
  - intros number. by apply query_lines_several_elem.
Qed.

Lemma query_lines_of_entries_witness :
  strictly_descending
    (query_lines (dictionary (index_lines [tweet "t1" "a b"; tweet "t2" "a"]))
       ["a"; "b"; "zzz"]).
Proof.
  apply (query_lines_of_entries [tweet "t1" "a b"; tweet "t2" "a"]
           ["a"; "b"; "zzz"]).
  discriminate.
Defined.

Lemma postings_head_elem (lines : list string) (type : string) (number : nat) :
  number ∈ postings_head (dictionary (index_lines lines)) type
  ↔ ∃ line, lines !! number = Some line ∧ has_type type line = true.
Proof.
  rewrite postings_head_lines, elem_of_reverse. split.
  - intros Hin. apply lines_with_lookup in Hin as (_ & line & Hget & Hty).
    rewrite Nat.sub_0_r in Hget. by exists line.
  - intros (line & Hget & Hty).
    by apply (lines_with_elem type lines 0 number line).
Qed.

Lemma heads_all_present (lines : list string) (terms : list string) :
  (∀ t, t ∈ terms → is_Some (dictionary (index_lines lines) !! t)) →
  List.filter is_item
    (List.map (postings_head (dictionary (index_lines lines))) terms)
  = List.map (postings_head (dictionary (index_lines lines))) terms.
Proof.
  intros Hpresent. apply filter_all_items, Forall_forall. intros p Hp.
  apply list_elem_of_In, in_map_iff in Hp as (t & <- & Ht).
  apply index_head_ok, Hpresent. by apply list_elem_of_In.
Qed.

(** X13. When every term of a query has an entry in the index of a file,
    the query of one or more terms finds exactly the numbers of the lines
    that have every one of the terms among their types. *)
Theorem query_finds_lines_with_all_terms (lines : list string)
    (terms : list string) (number : nat) :
  terms ≠ [] →
  (∀ t, t ∈ terms → is_Some (dictionary (index_lines lines) !! t)) →
  number ∈ query_lines (dictionary (index_lines lines)) terms
  ↔ ∃ line, lines !! number = Some line
            ∧ ∀ t, t ∈ terms → has_type t line = true.
Proof.
  intros Hne Hpresent.
  assert (Hall : number ∈ query_lines (dictionary (index_lines lines)) terms
                 ↔ ∀ t, t ∈ terms →
                        number ∈ postings_head (dictionary (index_lines lines)) t).
  { destruct (decide (length terms = 1)) as [Hone|Hlen].
    - destruct terms as [|t0 [|t1 rest]]; [done| |done].
      unfold query_lines. rewrite to_array_app. cbn [app]. split.
      + intros Hin t Ht. apply list_elem_of_singleton in Ht. by subst t.
      + intros Hin. apply Hin, elem_of_cons. by left.
    - rewrite query_lines_several_elem by done.
      rewrite heads_all_present by done. rewrite length_map. split.
      + intros [_ Hin] t Ht. apply Hin.
        by apply list_elem_of_In, in_map, list_elem_of_In.
      + intros Hin. split.
        * destruct terms as [|t0 [|t1 rest]]; [done|done|simpl; lia].
        * intros p Hp. apply list_elem_of_In, in_map_iff in Hp as (t & <- & Ht).
          by apply Hin, list_elem_of_In. }
  rewrite Hall. split.
  - intros Hin. destruct terms as [|t0 rest]; [done|].
    destruct (proj1 (postings_head_elem lines t0 number)) as (line & Hget & _).
    { apply Hin, elem_of_cons. by left. }
    exists line. split; [done|]. intros t Ht.
    destruct (proj1 (postings_head_elem lines t number) (Hin t Ht))
      as (line' & Hget' & Hty).
    rewrite Hget in Hget'. by injection Hget' as <-.
  - intros (line & Hget & Hty) t Ht. apply postings_head_elem.
    exists line. split; [done|by apply Hty].
Qed.

Lemma query_finds_lines_with_all_terms_witness :
  1 ∈ query_lines
        (dictionary (index_lines [tweet "t1" "side effects"; tweet "t2" "side effects of malaria"]))
        ["side"; "malaria"]
  ↔ ∃ line,
      [tweet "t1" "side effects"; tweet "t2" "side effects of malaria"] !! 1
      = Some line
      ∧ ∀ t, t ∈ ["side"; "malaria"] → has_type t line = true.
Proof.
  apply (query_finds_lines_with_all_terms
           [tweet "t1" "side effects"; tweet "t2" "side effects of malaria"]
           ["side"; "malaria"] 1).
  - discriminate.
  - intros t Ht. apply elem_of_cons in Ht as [->|Ht]; [by eexists|].
    apply list_elem_of_singleton in Ht. subst t. by eexists.
Defined.

(** ** The order of the terms, and a term given twice *)

Lemma descending_unique (l1 l2 : list nat) :
  strictly_descending l1 → strictly_descending l2 →
  (∀ n, n ∈ l1 ↔ n ∈ l2) → l1 = l2.
Proof.
  intros H1 H2 Hsame.
  apply (StronglySorted_unique_strong (λ d d', d' < d)); [|done|done|].
  - intros x y _ _ Hxy Hyx. lia.
  - apply NoDup_Permutation; [by apply descending_NoDup..|done].
Qed.

Lemma Permutation_list_filter {A} (f : A → bool) (l l' : list A) :
  l ≡ₚ l' → List.filter f l ≡ₚ List.filter f l'.
Proof.
  induction 1 as [|x l l' Hp IH|x y l|l l' l'' Hp IH Hp' IH']; simpl.
  - done.
  - destruct (f x); [by constructor|done].
  - destruct (f x), (f y); try done. apply perm_swap.
  - by etrans.
Qed.

(** X14. On the index of a file, the result of a query does not depend on
    the order in which the terms are given. *)
Theorem query_terms_order (lines : list string) (terms terms' : list string) :
  terms ≡ₚ terms' →
  query (dictionary (index_lines lines)) (ids (index_lines lines)) terms
  = query (dictionary (index_lines lines)) (ids (index_lines lines)) terms'.
Proof.
  intros Hperm. unfold query. f_equal.
  destruct (decide (length terms = 1)) as [Hone|Hlen].
  - destruct terms as [|t0 [|t1 rest]]; [done| |done].
    apply Permutation_singleton_l in Hperm. by subst terms'.
  - assert (Hlen' : length terms' ≠ 1).
    { by rewrite <- (Permutation_length Hperm). }
    apply descending_unique; [apply query_lines_descending..|].
    intros number. rewrite !query_lines_several_elem by done.
    assert (Hheads :
      List.filter is_item
        (List.map (postings_head (dictionary (index_lines lines))) terms)
      ≡ₚ List.filter is_item
           (List.map (postings_head (dictionary (index_lines lines))) terms')).
    { by apply Permutation_list_filter, Permutation_map. }
    rewrite (Permutation_length Hheads).
    split; intros [Htwo Hall]; (split; [done|]); intros p Hp; apply Hall.
    + by rewrite Hheads.
    + by rewrite <- Hheads.
Qed.

Lemma query_terms_order_witness :
  query (dictionary (index_lines [tweet "t1" "a b"]))
    (ids (index_lines [tweet "t1" "a b"])) ["a"; "b"; "zzz"]
  = query (dictionary (index_lines [tweet "t1" "a b"]))
      (ids (index_lines [tweet "t1" "a b"])) ["zzz"; "b"; "a"].
Proof.
  apply (query_terms_order [tweet "t1" "a b"] ["a"; "b"; "zzz"] ["zzz"; "b"; "a"]).
  etrans; [apply perm_swap|]. etrans; [apply perm_skip, perm_swap|].
  apply perm_swap.
Defined.

Lemma while_both_same (item resultList : list nat) :
  while_both item item resultList = resultList ++ item.
Proof.
  revert resultList. induction item as [|d next IH]; intros resultList.
  - by rewrite while_both_nil_l, app_nil_r.
  - rewrite while_both_cons, Nat.eqb_refl, IH. by rewrite <- app_assoc.
Qed.

(** X15. Whatever the dictionary, a term given twice finds what the term
    given once finds. *)
Theorem query_term_twice (dictionary : gmap string DictionaryItem)
    (idsMap : list (option string)) (term0 : string) :
  query dictionary idsMap [term0; term0] = query dictionary idsMap [term0].
Proof.
  unfold query. f_equal. unfold query_lines, sorted_items.
  rewrite js_sort_by_size. cbn [List.map List.filter].
  destruct (postings_head dictionary term0) as [|d next]; [done|].
  cbn [is_item negb app shift do_while]. rewrite while_both_same. done.
Qed.

(** ** What a query returns *)

Lemma query_lines_from_head (lines : list string) (terms : list string)
    (number : nat) :
  number ∈ query_lines (dictionary (index_lines lines)) terms →
  ∃ t, t ∈ terms
       ∧ number ∈ postings_head (dictionary (index_lines lines)) t.
Proof.
  destruct (decide (length terms = 1)) as [Hone|Hlen].
  - destruct terms as [|t0 [|t1 rest]]; [done| |done].
    unfold query_lines. rewrite to_array_app. cbn [app]. intros Hin.
    exists t0. split; [apply elem_of_cons; by left|done].
  - rewrite query_lines_several_elem by done. intros [Htwo Hall].
    destruct (List.filter is_item _) as [|A rest] eqn:Hheads;
      [simpl in Htwo; lia|].
    assert (HA : A ∈ List.filter is_item
                   (List.map (postings_head (dictionary (index_lines lines))) terms)).
    { rewrite Hheads. apply elem_of_cons. by left. }
    apply list_elem_of_In, filter_In in HA as [HA _].
    apply in_map_iff in HA as (t & <- & Ht).
    exists t. split; [by apply list_elem_of_In|].
    apply Hall, elem_of_cons. by left.
Qed.

(** X16. On the index of a file, no query returns [undefined]: every
    result is the id of the line whose number was found, and the numbers
    found are all different. *)
Theorem query_results_are_ids (lines : list string) (terms : list string) :
  let '(dictionary, idsMap) := index lines in
  NoDup (query_lines dictionary terms)
  ∧ Forall2 (λ number result,
               ∃ line, lines !! number = Some line
                       ∧ result = Some (line_id line))
      (query_lines dictionary terms) (query dictionary idsMap terms).
Proof.
  unfold index. split.
  { apply descending_NoDup, query_lines_descending. }
  unfold query. apply Forall2_fmap_r, Forall_Forall2_diag, Forall_forall.
  intros number Hin.
  apply query_lines_from_head in Hin as (t & _ & Hin).
  apply postings_head_elem in Hin as (line & Hget & Hty).
  exists line. split; [done|].
  rewrite index_lines_ids. unfold expected_id. rewrite Hget.
  unfold has_type in Hty. by destruct (line_types line).
Qed.

(** X17. On the index of a file, a query returns no more results than the
    document frequency of any of its terms that has an entry. *)
Theorem query_length_bound (lines : list string) (terms : list string)
    (term0 : string) (item : DictionaryItem) :
  term0 ∈ terms →
  dictionary (index_lines lines) !! term0 = Some item →
  length (query (dictionary (index_lines lines)) (ids (index_lines lines)) terms)
  ≤ size item.
Proof.
  intros Hin Hitem. unfold query. rewrite length_map.
  pose proof Hitem as Hexp. rewrite index_lines_dictionary in Hexp.
  pose proof (expected_entry_postings _ _ _ Hexp) as (_ & -> & _).
  pose proof (expected_entry_ok _ _ _ Hexp) as ((Hne & _ & _) & _).
  apply submseteq_length, NoDup_submseteq.
  { apply descending_NoDup, query_lines_descending. }
  intros number Hnum.
  assert (Hhead : postings_head (dictionary (index_lines lines)) term0
                  = postingsList item).
  { unfold postings_head. by rewrite Hitem. }
  rewrite <- Hhead.
  destruct (decide (length terms = 1)) as [Hone|Hlen].
  - destruct terms as [|t0 [|t1 rest]]; [done| |done].
    apply list_elem_of_singleton in Hin. subst t0.
    unfold query_lines in Hnum. by rewrite to_array_app in Hnum.
  - apply query_lines_several_elem in Hnum as [_ Hall]; [|done].
    apply Hall, list_elem_of_In, filter_In. split.
    + by apply in_map, list_elem_of_In.
    + rewrite Hhead. by destruct (postingsList item).
Qed.

Lemma query_length_bound_witness :
  length (query (dictionary (index_lines [tweet "t1" "a b"; tweet "t2" "a"]))
            (ids (index_lines [tweet "t1" "a b"; tweet "t2" "a"])) ["a"; "b"])
  ≤ 1.
Proof.
  apply (query_length_bound [tweet "t1" "a b"; tweet "t2" "a"] ["a"; "b"] "b"
           {| term := "b"; size := 1; postingsList := [0] |}).
  - apply elem_of_cons. right. apply elem_of_cons. by left.
  - reflexivity.
Defined.

Lemma query_lines_all_present_witness :
  strictly_descending
    (query_lines
       (dictionary (index_lines [tweet "t1" "a b c"; tweet "t2" "c b"]))
       ("b" :: "c" :: ["a"])).
Proof.
  apply (query_lines_all_present [tweet "t1" "a b c"; tweet "t2" "c b"]
           "b" "c" ["a"]).
  intros t Ht.
  apply elem_of_cons in Ht as [->|Ht]; [by eexists|].
  apply elem_of_cons in Ht as [->|Ht]; [by eexists|].
  apply list_elem_of_singleton in Ht. subst t. by eexists.
Defined.

(** ** The merge on its own *)

(** X18. On two strictly descending lists, the loop that compares them
    two items at a time collects exactly their common members, in
    strictly descending order, and it does not matter which list comes
    first. *)
Theorem merge_common_members (itemA itemB : list nat) :
  strictly_descending itemA → strictly_descending itemB →
  strictly_descending (while_both itemA itemB [])
  ∧ (∀ d, d ∈ while_both itemA itemB [] ↔ d ∈ itemA ∧ d ∈ itemB)
  ∧ while_both itemA itemB [] = while_both itemB itemA [].
Proof.
  intros HA HB. rewrite !while_both_keep_common by done. cbn [app].
  split_and!.
  - by apply keep_common_descending.
  - intros d. apply elem_of_keep_common.
  - apply descending_unique; [by apply keep_common_descending..|].
    intros d. rewrite !elem_of_keep_common. tauto.
Qed.

Lemma merge_common_members_witness :
  while_both [5; 3; 1] [4; 3; 1] [] = while_both [4; 3; 1] [5; 3; 1] [].
Proof.
  apply (merge_common_members [5; 3; 1] [4; 3; 1]).
  - repeat constructor.
  - repeat constructor.
Defined.

(** ** Fewer than two terms with an entry *)

(** X19. Whatever the dictionary, a query of no term or of several terms
    of which at most one has an entry returns the empty sequence. *)
Theorem query_needs_two_entries (dictionary : gmap string DictionaryItem)
    (idsMap : list (option string)) (terms : list string) :
  length terms ≠ 1 →
  length (List.filter is_item (List.map (postings_head dictionary) terms)) ≤ 1 →
  query dictionary idsMap terms = [].
Proof.
  intros Hlen Hone. unfold query.
  assert (Hq : query_lines dictionary terms
               = let '(itemA, allItems) := shift (sorted_items dictionary terms) in
                 let '(itemB, allItems) := shift allItems in
                 to_array (do_while itemA itemB allItems []) []).
  { destruct terms as [|t [|t' rest]]; [done|done|done]. }
  rewrite Hq. unfold sorted_items. rewrite js_sort_by_size.
  pose proof (filter_absent (List.map (postings_head dictionary) terms)) as Habsent.
  destruct (List.filter is_item (List.map (postings_head dictionary) terms))
    as [|A [|B others]]; [| |simpl in Hone; lia].
  - cbn [app].
    destruct Habsent as [|Z absent HZ Habsent]; cbn [shift]; [done|].
    destruct Z; [|done].
    destruct absent; cbn [shift]; by rewrite do_while_nil_l.
  - cbn [app shift].
    destruct Habsent as [|Z absent HZ Habsent]; cbn [shift].
    { by rewrite do_while_nil_r. }
    destruct Z; [|done]. by rewrite do_while_nil_r.
Qed.

Lemma query_needs_two_entries_witness :
  query (dictionary (index_lines [tweet "t1" "a b"]))
    (ids (index_lines [tweet "t1" "a b"])) ["zzz"; "a"; "yyy"] = [].
Proof.
  apply (query_needs_two_entries
           (dictionary (index_lines [tweet "t1" "a b"]))
           (ids (index_lines [tweet "t1" "a b"])) ["zzz"; "a"; "yyy"]).
  - discriminate.
  - vm_compute. lia.
Defined.

(** ** The fields of a line *)

Lemma split_length (sep : ascii) (s : string) :
  length (JS.split sep s) = S (count_char sep s).
Proof.
  induction s as [|c rest IH]; [done|]. cbn [JS.split count_char].
  destruct (Ascii.eqb c sep); [simpl; by rewrite IH|].
  pose proof (split_not_nil sep rest) as Hne.
  destruct (JS.split sep rest); [done|]. simpl in *. lia.
Qed.

Lemma split_no_sep (sep : ascii) (s : string) :
  count_char sep s = 0 → JS.split sep s = [s].
Proof.
  induction s as [|c rest IH]; [done|]. cbn [JS.split count_char].
  destruct (Ascii.eqb c sep); [done|]. intros Hz. by rewrite IH.
Qed.

(** X21. A line with fewer than three tabulators has no text field: the
    indexer adds one to the line number and changes nothing else. *)
Theorem short_line_skipped (st : IndexState) (line : string) :
  count_char SEPARATOR line < 3 →
  index_line st line
  = {| lineNumber := lineNumber st + 1;
       dictionary := dictionary st;
       ids := ids st |}.
Proof.
  intros Hshort. unfold index_line, line_types, line_tweetText.
  rewrite lookup_ge_None_2; [done|]. rewrite split_length. lia.
Qed.

Lemma short_line_skipped_witness :
  index_line index_init "no tabulator here"
  = {| lineNumber := 1; dictionary := ∅; ids := [] |}.
Proof.
  apply (short_line_skipped index_init "no tabulator here").
  vm_compute. lia.
Defined.

Lemma split_join (fields : list string) :
  fields ≠ [] →
  Forall (λ field, count_char SEPARATOR field = 0) fields →
  JS.split SEPARATOR (join_fields fields) = fields.
Proof.
  intros Hne Hall. induction Hall as [|field rest Hfield Hrest IH]; [done|].
  destruct rest as [|field' rest'].
  - by apply split_no_sep.
  - cbn [join_fields]. rewrite split_app, split_no_sep by done.
    cbn [app]. f_equal. by apply IH.
Qed.

(** X22. When no field has a tabulator in it, a line that joins an id, a
    user id, a user name, a text and any further fields by tabulators is
    read back field by field: its id is the first field and its text the
    fourth, whatever comes after. *)
Theorem line_fields (id userId userName tweetText : string)
    (more : list string) :
  Forall (λ field, count_char SEPARATOR field = 0)
    (id :: userId :: userName :: tweetText :: more) →
  line_id (join_fields (id :: userId :: userName :: tweetText :: more)) = id
  ∧ line_tweetText (join_fields (id :: userId :: userName :: tweetText :: more))
    = Some tweetText.
Proof.
  intros Hall. unfold line_id, line_tweetText.
  by rewrite split_join.
Qed.

Lemma line_fields_witness :
  line_tweetText (join_fields ["t1"; "u1"; "user"; "hello world"; "extra"])
  = Some "hello world".
Proof.
  apply (line_fields "t1" "u1" "user" "hello world" ["extra"]).
  repeat constructor.
Defined.
